(** * ScoopMath: fixed-size vectors and matrices

    A shallow embedding of [Math/Vector.hpp] and [Math/Matrix.hpp]
    (namespace [Scoop::Math]) together with the properties stated for
    them.

    Conventions of the embedding.
    - [size_t] is [N]; arithmetic on it wraps modulo [2^64] ([wrap]).
    - The template parameter [Type] is a type with a [Scalar] instance
      (the arithmetic the headers use); the algebraic properties are
      proved for element types whose arithmetic is a commutative ring
      ([ScalarRing]), which covers the unsigned fixed-width aliases.
      [double] is IEEE binary64 ([PrimFloat.float]).
    - An object is its [data] array, a list; the template sizes are
      phantom parameters and [wf] says that the list has the declared
      number of elements.
    - A default-constructed object has indeterminate contents: every
      function that declares one takes these contents as an argument
      named [uninit].
    - Methods that mutate [this] or that can throw run in the monad
      [M S A := S -> outcome A * S].  A raw array access outside the
      list is [Undefined]. *)

From Stdlib Require Import String ZArith NArith Lia List Bool Ring.
From Stdlib Require Import PrimFloat Uint63.
From coqutil Require Import Word.Interface Word.Properties Word.Naive.
Import ListNotations.

Local Open Scope N_scope.

(* ------------------------------------------------------------------ *)
(** ** [size_t] *)

Definition size_t := N.

Definition size_max : N := 2 ^ 64.

Definition wrap (n : N) : size_t := (n mod size_max)%N.

(** The counters of [for (size_t i = 0; i < n; i++)], in order. *)
Definition range (n : size_t) : list size_t :=
  map N.of_nat (seq 0 (N.to_nat n)).

(* ------------------------------------------------------------------ *)
(** ** Exceptions and outcomes *)

(** The objects the headers throw.  [Error::Create] and
    [Error::IndexError] belong to a class [Error] that [Vector.hpp] uses
    and does not declare: they are kept as constructors applied to the
    arguments of the call. *)
Inductive exn : Type :=
| Error_Create (cls fn msg : string)
| Error_IndexError (cls fn : string) (index size : size_t)
| runtime_error (what : string)
| out_of_range (what : string).

Inductive outcome (A : Type) : Type :=
| Ok (a : A)
| Throw (e : exn)
| Undefined.

Arguments Ok {A} a.
Arguments Throw {A} e.
Arguments Undefined {A}.

(** The error kinds of the library. *)
Inductive ErrorKind : Type := SizeMismatch | IndexOutOfRange | ShapeMismatch.

(** Modelled from the spec: the error kind of a thrown object.  The
    class [Error] is missing from the sources; what [Vector::Assign]
    throws with [Error::Create] is a size mismatch and an
    [Error::IndexError] is an index out of range.  The standard
    exceptions of [Matrix.hpp] are told apart by their message. *)

Definition kind (e : exn) : option ErrorKind :=
  match e with
  | Error_Create _ fn _ =>
      if String.eqb fn "Assign" then Some SizeMismatch else None
  | Error_IndexError _ _ _ _ => Some IndexOutOfRange
  | runtime_error what =>
      if String.eqb what "Matrix::Assign: vector size mismatch."
      then Some SizeMismatch
      else if String.eqb what
        "Matrix::AsVector: matrix must have 1 column to be interpreted as a vector."
      then Some ShapeMismatch else None
  | out_of_range _ => Some IndexOutOfRange
  end.

Definition raises {A} (o : outcome A) (k : ErrorKind) : Prop :=
  exists e, o = Throw e /\ kind e = Some k.

(** A computation over a mutable object of type [S]. *)
Definition M (S A : Type) : Type := S -> outcome A * S.

Definition ret {S A} (a : A) : M S A := fun s => (Ok a, s).

Definition bind {S A B} (m : M S A) (k : A -> M S B) : M S B :=
  fun s =>
    match m s with
    | (Ok a, s') => k a s'
    | (Throw e, s') => (Throw e, s')
    | (Undefined, s') => (Undefined, s')
    end.

Definition throw {S A} (e : exn) : M S A := fun s => (Throw e, s).

Definition get {S} : M S S := fun s => (Ok s, s).

Definition put {S} (s : S) : M S unit := fun _ => (Ok tt, s).

Definition lift {S A} (o : outcome A) : M S A := fun s => (o, s).

Declare Scope m_scope.
Delimit Scope m_scope with M.
Notation "x <- m ;; k" := (bind m (fun x => k))
  (at level 61, m at next level, right associativity) : m_scope.
Notation "m ;; k" := (bind m (fun _ => k))
  (at level 61, right associativity) : m_scope.

(** [for (size_t i = 0; i < n; i++) body(i)] *)
Fixpoint forM {S} (l : list size_t) (body : size_t -> M S unit) : M S unit :=
  match l with
  | [] => ret tt
  | i :: l' => (body i ;; forM l' body)%M
  end.

Definition For {S} (n : size_t) (body : size_t -> M S unit) : M S unit :=
  forM (range n) body.

(** Run a block on its own local, giving the local's final value. *)
Definition exec {S} (m : M S unit) (s : S) : outcome S :=
  match m s with
  | (Ok _, s') => Ok s'
  | (Throw e, _) => Throw e
  | (Undefined, _) => Undefined
  end.

(* ------------------------------------------------------------------ *)
(** ** Raw arrays *)

Section Arrays.
Context {T : Type}.

(** [a[i]] read, no bounds check. *)
Definition read (a : list T) (i : size_t) : outcome T :=
  match nth_error a (N.to_nat i) with
  | Some x => Ok x
  | None => Undefined
  end.

Fixpoint update (a : list T) (i : nat) (x : T) : list T :=
  match a, i with
  | [], _ => []
  | _ :: a', O => x :: a'
  | y :: a', S i' => y :: update a' i' x
  end.

(** [a[i] = x], no bounds check. *)
Definition write (a : list T) (i : size_t) (x : T) : outcome (list T) :=
  if (i <? N.of_nat (length a))%N then Ok (update a (N.to_nat i) x)
  else Undefined.

(** [std::memcpy(dst, src, sizeof(T) * n)], counted in elements.  The
    headers only ever copy whole arrays; a source that is the
    destination itself is copied onto itself. *)
Definition memcpy (dst src : list T) (n : size_t) : outcome (list T) :=
  if ((n <=? N.of_nat (length src)) && (n <=? N.of_nat (length dst)))%N
  then Ok (firstn (N.to_nat n) src ++ skipn (N.to_nat n) dst)
  else Undefined.
End Arrays.

(* ------------------------------------------------------------------ *)
(** ** The element type *)

Class Scalar (T : Type) : Type := {
  zero : T;                 (* the literal 0 converted to Type *)
  one : T;                  (* the literal 1 converted to Type *)
  add : T -> T -> T;
  sub : T -> T -> T;
  mul : T -> T -> T;
  opp : T -> T;
  to_double : T -> float    (* the conversion at [sqrt(sum)] *)
}.

Definition ScalarRing (T : Type) {Sc : Scalar T} : Prop :=
  ring_theory zero one add mul sub opp (@eq T).

(** [double] *)
#[export] Instance Scalar_double : Scalar float := {
  zero := 0%float;
  one := 1%float;
  add := PrimFloat.add;
  sub := PrimFloat.sub;
  mul := PrimFloat.mul;
  opp := PrimFloat.opp;
  to_double := fun x => x
}.

(** [uint32_t] *)
Definition uint32_t : Type := Naive.word32.

#[export] Instance Scalar_uint32 : Scalar uint32_t := {
  zero := word.of_Z 0;
  one := word.of_Z 1;
  add := word.add;
  sub := word.sub;
  mul := word.mul;
  opp := word.opp;
  to_double := fun x => PrimFloat.of_uint63 (Uint63.of_Z (word.unsigned x))
}.


(** An integer literal converted to [uint32_t]. *)
Definition u32 (z : Z) : uint32_t := word.of_Z z.

(** The built-in [/] of the element type, as [1 / s] uses it: dividing
    an integer by zero is undefined, dividing a [double] is not. *)
Class ScalarDiv (T : Type) : Type := {
  div : T -> T -> outcome T
}.

#[export] Instance ScalarDiv_double : ScalarDiv float := {
  div := fun x y => Ok (PrimFloat.div x y)
}.

#[export] Instance ScalarDiv_uint32 : ScalarDiv uint32_t := {
  div := fun x y =>
    if word.eqb y (word.of_Z 0) then Undefined else Ok (word.divu x y)
}.

(** The conversion of a [double] argument to a parameter of type [Type],
    as [Scale(1 / Magnitude())] uses it. *)
Class FromDouble (T : Type) : Type := {
  of_double : float -> outcome T
}.

#[export] Instance FromDouble_double : FromDouble float := {
  of_double := fun x => Ok x
}.

(** Sequencing of outcomes, for [const] methods. *)
Definition obind {A B} (o : outcome A) (k : A -> outcome B) : outcome B :=
  match o with
  | Ok a => k a
  | Throw e => Throw e
  | Undefined => Undefined
  end.

Notation "'let!' x := o 'in' k" := (obind o (fun x => k))
  (at level 10, x name, o at level 100, k at level 200).

(* ------------------------------------------------------------------ *)
(** ** [template <typename Type, size_t Size> class Vector] *)

Module Vector.

Record t (T : Type) (Size : size_t) : Type := mk { data : list T }.
Arguments mk {T Size} data.
Arguments data {T Size} _.

Section WithType.
Context {T : Type} {Sc : Scalar T}.

(** [Type data[Size]] *)
Definition wf {Size} (v : t T Size) : Prop :=
  N.of_nat (length (data v)) = Size.

(** [void Assign(const std::vector<Type> &values)] *)
Definition Assign_values {Size} (values : list T) : M (t T Size) unit :=
  if negb (N.of_nat (length values) =? Size)%N
  then throw (Error_Create "Vector" "Assign"
         "Specified std::vector::size does not match this vector's size.")
  else (this <- get ;;
        d <- lift (memcpy (data this) values Size) ;;
        put (mk d))%M.

(** [explicit Vector(const std::vector<Type> &values)] *)
Definition ctor_values {Size} (uninit : t T Size) (values : list T)
  : outcome (t T Size) :=
  exec (Assign_values values) uninit.

(** [const Type &At(size_t index) const] *)
Definition At {Size} (this : t T Size) (index : size_t) : outcome T :=
  if (Size <=? index)%N
  then Throw (Error_IndexError "Vector" "At" index Size)
  else read (data this) index.

(** [const Type &operator[](size_t index) const] *)
Definition index {Size} (this : t T Size) (i : size_t) : outcome T :=
  read (data this) i.

(** [Type &operator[](size_t index)], assigned through. *)
Definition index_set {Size} (i : size_t) (x : T) : M (t T Size) unit :=
  (this <- get ;;
   d <- lift (write (data this) i x) ;;
   put (mk d))%M.

(** [double Magnitude() const]: the accumulator [sum] is a [Type]. *)
Definition Magnitude {Size} (this : t T Size) : outcome float :=
  let! sum :=
    exec (For Size (fun i =>
            element <- lift (read (data this) i) ;;
            sum <- get ;;
            put (add sum (mul element element)))%M) zero in
  Ok (PrimFloat.sqrt (to_double sum)).

(** [Vector<Type, 3> Cross(const Vector<Type, 3> &b) const], enabled
    for [Size == 3] only. *)
Definition Cross (uninit : t T 3) (this b : t T 3) : outcome (t T 3) :=
  exec (a1 <- lift (read (data this) 1) ;;
        b2 <- lift (read (data b) 2) ;;
        a2 <- lift (read (data this) 2) ;;
        b1 <- lift (read (data b) 1) ;;
        index_set 0 (sub (mul a1 b2) (mul a2 b1)) ;;
        a2 <- lift (read (data this) 2) ;;
        b0 <- lift (read (data b) 0) ;;
        a0 <- lift (read (data this) 0) ;;
        b2 <- lift (read (data b) 2) ;;
        index_set 1 (sub (mul a2 b0) (mul a0 b2)) ;;
        a0 <- lift (read (data this) 0) ;;
        b1 <- lift (read (data b) 1) ;;
        a1 <- lift (read (data this) 1) ;;
        b0 <- lift (read (data b) 0) ;;
        index_set 2 (sub (mul a0 b1) (mul a1 b0)))%M uninit.

(** [void Assign(Type value)] *)
Definition Assign_value {Size} (value : T) : M (t T Size) unit :=
  For Size (fun i => index_set i value).

(** [void Assign(const Vector<Type, Size> &vec)] *)
Definition Assign_vec {Size} (vec : t T Size) : M (t T Size) unit :=
  (this <- get ;;
   d <- lift (memcpy (data this) (data vec) Size) ;;
   put (mk d))%M.

(** [Type &At(size_t index)], assigned through. *)
Definition At_set {Size} (index : size_t) (x : T) : M (t T Size) unit :=
  if (Size <=? index)%N
  then throw (Error_IndexError "Vector" "At" index Size)
  else index_set index x.

(** [data[i] op= ...]: the element is read, then written. *)
Definition update_at {Size} (i : size_t) (f : T -> T) : M (t T Size) unit :=
  (this <- get ;;
   e <- lift (read (data this) i) ;;
   d <- lift (write (data this) i (f e)) ;;
   put (mk d))%M.

(** [Type Sum() const] *)
Definition Sum {Size} (this : t T Size) : outcome T :=
  exec (For Size (fun i =>
          e <- lift (read (data this) i) ;;
          sum <- get ;;
          put (add sum e))%M) zero.

(** [Type Dot(const Vector<Type, Size> &vec) const] *)
Definition Dot {Size} (this vec : t T Size) : outcome T :=
  exec (For Size (fun i =>
          a <- lift (read (data this) i) ;;
          b <- lift (read (data vec) i) ;;
          product <- get ;;
          put (add product (mul a b)))%M) zero.

(** [Vector<Type, Size> Add(Type scalar) const]: the loop runs on
    [vec], a copy of [*this]. *)
Definition Add_scalar {Size} (this : t T Size) (scalar : T)
  : outcome (t T Size) :=
  exec (For Size (fun i => update_at i (fun e => add e scalar))) this.

(** [Vector<Type, Size> Subtract(Type scalar) const] *)
Definition Subtract_scalar {Size} (this : t T Size) (scalar : T)
  : outcome (t T Size) :=
  exec (For Size (fun i => update_at i (fun e => sub e scalar))) this.

(** [Vector<Type, Size> Scale(Type scalar) const] *)
Definition Scale {Size} (this : t T Size) (scalar : T)
  : outcome (t T Size) :=
  exec (For Size (fun i => update_at i (fun e => mul e scalar))) this.

(** [void AddInPlace(Type scalar)] *)
Definition AddInPlace_scalar {Size} (scalar : T) : M (t T Size) unit :=
  For Size (fun i => update_at i (fun e => add e scalar)).

(** [void SubtractInPlace(Type scalar)] *)
Definition SubtractInPlace_scalar {Size} (scalar : T) : M (t T Size) unit :=
  For Size (fun i => update_at i (fun e => sub e scalar)).

(** [void ScaleInPlace(Type scalar)] *)
Definition ScaleInPlace {Size} (scalar : T) : M (t T Size) unit :=
  For Size (fun i => update_at i (fun e => mul e scalar)).

(** [Vector<Type, Size> Add(const Vector<Type, Size> &vec) const] *)
Definition Add_vec {Size} (this vec : t T Size) : outcome (t T Size) :=
  exec (For Size (fun i =>
          b <- lift (read (data vec) i) ;;
          update_at i (fun e => add e b))%M) this.

(** [Vector<Type, Size> Subtract(const Vector<Type, Size> &vec) const] *)
Definition Subtract_vec {Size} (this vec : t T Size) : outcome (t T Size) :=
  exec (For Size (fun i =>
          b <- lift (read (data vec) i) ;;
          update_at i (fun e => sub e b))%M) this.

(** [Vector<Type, Size> Hadamard(const Vector<Type, Size> &vec) const] *)
Definition Hadamard {Size} (this vec : t T Size) : outcome (t T Size) :=
  exec (For Size (fun i =>
          b <- lift (read (data vec) i) ;;
          update_at i (fun e => mul e b))%M) this.

(** [void AddInPlace(const Vector<Type, Size> &vec)] *)
Definition AddInPlace_vec {Size} (vec : t T Size) : M (t T Size) unit :=
  For Size (fun i =>
    b <- lift (read (data vec) i) ;;
    update_at i (fun e => add e b))%M.

(** [void SubtractInPlace(const Vector<Type, Size> &vec)] *)
Definition SubtractInPlace_vec {Size} (vec : t T Size) : M (t T Size) unit :=
  For Size (fun i =>
    b <- lift (read (data vec) i) ;;
    update_at i (fun e => sub e b))%M.

(** [void HadamardInPlace(const Vector<Type, Size> &vec)] *)
Definition HadamardInPlace {Size} (vec : t T Size) : M (t T Size) unit :=
  For Size (fun i =>
    b <- lift (read (data vec) i) ;;
    update_at i (fun e => mul e b))%M.

(** [Vector<Type, Size> operator/(Type s) const]: [Scale(1 / s)] *)
Definition operator_div {Dv : ScalarDiv T} {Size} (this : t T Size) (s : T)
  : outcome (t T Size) :=
  let! r := div one s in Scale this r.

(** [Vector<Type, Size> &operator/=(Type s)]: [ScaleInPlace(1 / s)] *)
Definition operator_div_assign {Dv : ScalarDiv T} {Size} (s : T)
  : M (t T Size) unit :=
  (r <- lift (div one s) ;; ScaleInPlace r)%M.

(** [Vector<Type, Size> Normalize() const] *)
Definition Normalize {Fd : FromDouble T} {Size} (this : t T Size)
  : outcome (t T Size) :=
  let! magnitude := Magnitude this in
  let! s := of_double (PrimFloat.div 1 magnitude) in
  Scale this s.

(** [void NormalizeInPlace()] *)
Definition NormalizeInPlace {Fd : FromDouble T} {Size} : M (t T Size) unit :=
  (this <- get ;;
   magnitude <- lift (Magnitude this) ;;
   s <- lift (of_double (PrimFloat.div 1 magnitude)) ;;
   ScaleInPlace s)%M.

End WithType.
End Vector.

(* ------------------------------------------------------------------ *)
(** ** [template <typename Type, size_t Rows, size_t Cols> class Matrix] *)

Module Matrix.

Record t (T : Type) (Rows Cols : size_t) : Type := mk { data : list T }.
Arguments mk {T Rows Cols} data.
Arguments data {T Rows Cols} _.

Section WithType.
Context {T : Type} {Sc : Scalar T}.

(** [Type data[Rows * Cols]] *)
Definition wf {Rows Cols} (m : t T Rows Cols) : Prop :=
  N.of_nat (length (data m)) = wrap (Rows * Cols).

(** [void Assign(Type diagonal)]: the running index [i] is a local. *)
Definition Assign_diagonal {Rows Cols} (diagonal : T)
  : M (t T Rows Cols) unit :=
  fun this =>
    let body : M (t T Rows Cols * size_t) unit :=
      For Rows (fun row =>
        For Cols (fun col =>
          s <- get ;;
          d <- lift (write (data (fst s)) (snd s)
                       (if (row =? col)%N then diagonal else zero)) ;;
          put (mk d, wrap (snd s + 1)%N)))%M in
    let r := body (this, 0%N) in
    (fst r, fst (snd r)).

(** [void Assign(const std::vector<Type> &values)]: the source of the
    copy is the member [data]. *)
Definition Assign_values {Rows Cols} (values : list T)
  : M (t T Rows Cols) unit :=
  if negb (N.of_nat (length values) =? wrap (Rows * Cols))%N
  then throw (runtime_error "Matrix::Assign: vector size mismatch.")
  else (this <- get ;;
        d <- lift (memcpy (data this) (data this) (wrap (Rows * Cols))) ;;
        put (mk d))%M.

(** [explicit Matrix(Type diagonal)] *)
Definition ctor_diagonal {Rows Cols} (uninit : t T Rows Cols)
  (diagonal : T) : outcome (t T Rows Cols) :=
  exec (Assign_diagonal diagonal) uninit.

(** [explicit Matrix(const std::vector<Type> &values)] *)
Definition ctor_values {Rows Cols} (uninit : t T Rows Cols)
  (values : list T) : outcome (t T Rows Cols) :=
  exec (Assign_values values) uninit.

(** [const Type &At(size_t index) const] *)
Definition At {Rows Cols} (this : t T Rows Cols) (index : size_t)
  : outcome T :=
  if (wrap (Rows * Cols) <=? index)%N
  then Throw (out_of_range "Matrix::At: index out of range.")
  else read (data this) index.

(** [Type &At(size_t index)], assigned through. *)
Definition At_set {Rows Cols} (index : size_t) (x : T)
  : M (t T Rows Cols) unit :=
  if (wrap (Rows * Cols) <=? index)%N
  then throw (out_of_range "Matrix::At: index out of range.")
  else (this <- get ;;
        d <- lift (write (data this) index x) ;;
        put (mk d))%M.

(** [const Type &At(size_t row, size_t col) const] *)
Definition At_rc {Rows Cols} (this : t T Rows Cols) (row col : size_t)
  : outcome T :=
  At this (wrap (wrap (col * Rows) + row)).

(** [Type &At(size_t row, size_t col)], assigned through. *)
Definition At_rc_set {Rows Cols} (row col : size_t) (x : T)
  : M (t T Rows Cols) unit :=
  At_set (wrap (wrap (col * Rows) + row)) x.

(* [Transpose] (l. 86-97) and [MultiplyInPlace] (l. 240-258) have no
   embedding.  Each begins by constructing its result from two [size_t]
   arguments, [newMat(Cols, Rows)] and [newMat(Rows, Cols)], and the class
   declares the default constructor, [Matrix(Type)] and
   [Matrix(const std::vector<Type> &)] only: no constructor takes two
   arguments, so neither member function can be instantiated. *)

(** [Matrix<Type, Rows, Cols2> Multiply(const Matrix<Type, Cols, Cols2> &mat) const] *)
Definition Multiply {Rows Cols Cols2} (uninit : t T Rows Cols2)
  (this : t T Rows Cols) (mat : t T Cols Cols2)
  : outcome (t T Rows Cols2) :=
  exec (For Rows (fun row =>
          For Cols2 (fun col =>
            dot <- lift (exec (For Cols (fun m =>
                      a <- lift (At_rc this row m) ;;
                      b <- lift (At_rc mat m col) ;;
                      dot <- get ;;
                      put (add dot (mul a b)))) zero) ;;
            At_rc_set row col dot))%M) uninit.

(** [Vector<Type, Rows> Multiply(const Vector<Type, Rows> &vec) const];
    [newVec.data[row] = dot] is the unchecked write of [operator[]]. *)
Definition Multiply_vec {Rows Cols} (uninit : Vector.t T Rows)
  (this : t T Rows Cols) (vec : Vector.t T Rows)
  : outcome (Vector.t T Rows) :=
  exec (For Rows (fun row =>
          dot <- lift (exec (For Cols (fun col =>
                    a <- lift (At_rc this row col) ;;
                    b <- lift (read (Vector.data vec) col) ;;
                    dot <- get ;;
                    put (add dot (mul a b)))) zero) ;;
          Vector.index_set row dot)%M) uninit.

(** [static Matrix<Type, Rows, Cols> Identity()] *)
Definition Identity {Rows Cols} (uninit : t T Rows Cols)
  : outcome (t T Rows Cols) :=
  ctor_diagonal uninit one.

(** [static Matrix<Type, 4, 4> Translation(const Vector<Type, 3> &delta)] *)
Definition Translation (uninit : t T 4 4) (delta : Vector.t T 3)
  : outcome (t T 4 4) :=
  let! d0 := Vector.index delta 0 in
  let! d1 := Vector.index delta 1 in
  let! d2 := Vector.index delta 2 in
  ctor_values uninit
    [ one; zero; zero; zero;
      zero; one; zero; zero;
      zero; zero; one; zero;
      d0; d1; d2; one ].

(** [Type &operator[](size_t index)], assigned through. *)
Definition index_set {Rows Cols} (i : size_t) (x : T)
  : M (t T Rows Cols) unit :=
  (this <- get ;;
   d <- lift (write (data this) i x) ;;
   put (mk d))%M.

(** [data[i] op= ...]: the element is read, then written. *)
Definition update_at {Rows Cols} (i : size_t) (f : T -> T)
  : M (t T Rows Cols) unit :=
  (this <- get ;;
   e <- lift (read (data this) i) ;;
   d <- lift (write (data this) i (f e)) ;;
   put (mk d))%M.

(** [Matrix<Type, Rows, Cols> Add(Type scalar) const]: the loop runs
    on [mat], a copy of [*this]. *)
Definition Add_scalar {Rows Cols} (this : t T Rows Cols) (scalar : T)
  : outcome (t T Rows Cols) :=
  exec (For (wrap (Rows * Cols))
            (fun i => update_at i (fun e => add e scalar))) this.

(** [Matrix<Type, Rows, Cols> Subtract(Type scalar) const] *)
Definition Subtract_scalar {Rows Cols} (this : t T Rows Cols) (scalar : T)
  : outcome (t T Rows Cols) :=
  exec (For (wrap (Rows * Cols))
            (fun i => update_at i (fun e => sub e scalar))) this.

(** [Matrix<Type, Rows, Cols> Scale(Type scalar) const] *)
Definition Scale {Rows Cols} (this : t T Rows Cols) (scalar : T)
  : outcome (t T Rows Cols) :=
  exec (For (wrap (Rows * Cols))
            (fun i => update_at i (fun e => mul e scalar))) this.

(** [void AddInPlace(Type scalar)] *)
Definition AddInPlace_scalar {Rows Cols} (scalar : T)
  : M (t T Rows Cols) unit :=
  For (wrap (Rows * Cols)) (fun i => update_at i (fun e => add e scalar)).

(** [void SubtractInPlace(Type scalar)] *)
Definition SubtractInPlace_scalar {Rows Cols} (scalar : T)
  : M (t T Rows Cols) unit :=
  For (wrap (Rows * Cols)) (fun i => update_at i (fun e => sub e scalar)).

(** [void ScaleInPlace(Type scalar)] *)
Definition ScaleInPlace {Rows Cols} (scalar : T) : M (t T Rows Cols) unit :=
  For (wrap (Rows * Cols)) (fun i => update_at i (fun e => mul e scalar)).

(** [Matrix<Type, Rows, Cols> Add(const Matrix<Type, Rows, Cols> &mat) const] *)
Definition Add_mat {Rows Cols} (this mat : t T Rows Cols)
  : outcome (t T Rows Cols) :=
  exec (For (wrap (Rows * Cols)) (fun i =>
          b <- lift (read (data mat) i) ;;
          update_at i (fun e => add e b))%M) this.

(** [Matrix<Type, Rows, Cols> Subtract(const Matrix<Type, Rows, Cols> &mat) const] *)
Definition Subtract_mat {Rows Cols} (this mat : t T Rows Cols)
  : outcome (t T Rows Cols) :=
  exec (For (wrap (Rows * Cols)) (fun i =>
          b <- lift (read (data mat) i) ;;
          update_at i (fun e => sub e b))%M) this.

(** [Matrix<Type, Rows, Cols> Hadamard(const Matrix<Type, Rows, Cols> &mat) const] *)
Definition Hadamard {Rows Cols} (this mat : t T Rows Cols)
  : outcome (t T Rows Cols) :=
  exec (For (wrap (Rows * Cols)) (fun i =>
          b <- lift (read (data mat) i) ;;
          update_at i (fun e => mul e b))%M) this.

(** [void AddInPlace(const Matrix<Type, Rows, Cols> &mat)]:
    [this->data[i] = this->data[i] + mat.data[i]] *)
Definition AddInPlace_mat {Rows Cols} (mat : t T Rows Cols)
  : M (t T Rows Cols) unit :=
  For (wrap (Rows * Cols)) (fun i =>
    this <- get ;;
    a <- lift (read (data this) i) ;;
    b <- lift (read (data mat) i) ;;
    index_set i (add a b))%M.

(** [void SubtractInPlace(const Matrix<Type, Rows, Cols> &mat)] *)
Definition SubtractInPlace_mat {Rows Cols} (mat : t T Rows Cols)
  : M (t T Rows Cols) unit :=
  For (wrap (Rows * Cols)) (fun i =>
    this <- get ;;
    a <- lift (read (data this) i) ;;
    b <- lift (read (data mat) i) ;;
    index_set i (sub a b))%M.

(** [void HadamardInPlace(const Matrix<Type, Rows, Cols> &mat)] *)
Definition HadamardInPlace {Rows Cols} (mat : t T Rows Cols)
  : M (t T Rows Cols) unit :=
  For (wrap (Rows * Cols)) (fun i =>
    this <- get ;;
    a <- lift (read (data this) i) ;;
    b <- lift (read (data mat) i) ;;
    index_set i (mul a b))%M.

(** [Matrix<Type, Rows, Cols> operator/(Type s) const]: [Scale(1 / s)] *)
Definition operator_div {Dv : ScalarDiv T} {Rows Cols}
  (this : t T Rows Cols) (s : T) : outcome (t T Rows Cols) :=
  let! r := div one s in Scale this r.

(** [Matrix<Type, Rows, Cols> &operator/=(Type s)]: [ScaleInPlace(1 / s)] *)
Definition operator_div_assign {Dv : ScalarDiv T} {Rows Cols} (s : T)
  : M (t T Rows Cols) unit :=
  (r <- lift (div one s) ;; ScaleInPlace r)%M.

(** [static Matrix<Type, 4, 4> Scale(const Vector<Type, 3> &multipliers)] *)
Definition Scale_multipliers (uninit : t T 4 4) (multipliers : Vector.t T 3)
  : outcome (t T 4 4) :=
  let! m0 := Vector.index multipliers 0 in
  let! m1 := Vector.index multipliers 1 in
  let! m2 := Vector.index multipliers 2 in
  ctor_values uninit
    [ m0; zero; zero; zero;
      zero; m1; zero; zero;
      zero; zero; m2; zero;
      zero; zero; zero; one ].

End WithType.
End Matrix.

(* ------------------------------------------------------------------ *)
(** ** Vocabulary of the statements *)

Section Vocabulary.
Context {T : Type} {Sc : Scalar T}.

(** The sum of [f 0], ..., [f (n - 1)], added up from 0 in this order. *)
Definition sum_upto (n : N) (f : N -> T) : T :=
  fold_left (fun acc m => add acc (f m)) (range n) zero.

(** The element (row, col) of a matrix in the column-major layout. *)
Definition entry {Rows Cols} (m : Matrix.t T Rows Cols) (row col : N) : T :=
  nth (N.to_nat (col * Rows + row)) (Matrix.data m) zero.

(** The element [i] of a vector. *)
Definition component {Size} (v : Vector.t T Size) (i : N) : T :=
  nth (N.to_nat i) (Vector.data v) zero.

(** Two arrays combined element by element. *)
Definition zip_with (g : T -> T -> T) (a b : list T) : list T :=
  map (fun p => g (fst p) (snd p)) (combine a b).

End Vocabulary.

(** The [double] nearest to a nonnegative integer below [2^63] (exact
    below [2^53]). *)
Definition double_of_Z (z : Z) : float :=
  PrimFloat.of_uint63 (Uint63.of_Z z).

(** The sum of the squares of the elements, as an integer. *)
Definition sum_of_squares_Z (l : list uint32_t) : Z :=
  fold_left (fun acc x => acc + word.unsigned x * word.unsigned x)%Z l 0%Z.

(** The translation matrix of the specification, in column-major order. *)
Definition translation_matrix (x y z : float) : Matrix.t float 4 4 :=
  Matrix.mk [ 1; 0; 0; 0;
              0; 1; 0; 0;
              0; 0; 1; 0;
              x; y; z; 1 ]%float.

(* ------------------------------------------------------------------ *)
(** * Properties *)

Set Implicit Arguments.

Lemma ScalarRing_uint32 : ScalarRing uint32_t.
Proof. exact (word.ring_theory (word := Naive.word32)). Qed.

(* ------------------------------------------------------------------ *)
(** ** [size_t] arithmetic *)

Lemma wrap_small (n : N) : n < size_max -> wrap n = n.
Proof. intros H. unfold wrap. now apply N.mod_small. Qed.

(** The flat index of an in-range (row, col) is computed without
    wrap-around and lies inside the array. *)
Lemma flat_index_in_range (Rows Cols row col : N) :
  Rows * Cols < size_max -> row < Rows -> col < Cols ->
  wrap (wrap (col * Rows) + row) = col * Rows + row /\
  col * Rows + row < Rows * Cols.
Proof.
  intros Hsz Hr Hc.
  assert (Hlt : col * Rows + row < Rows * Cols) by nia.
  split; [| exact Hlt].
  rewrite (@wrap_small (col * Rows)) by nia.
  apply wrap_small. lia.
Qed.

(** Every flat index is the index of exactly one (row, col). *)
Lemma flat_index_decompose (Rows Cols k : N) :
  k < Rows * Cols ->
  k = (k / Rows) * Rows + k mod Rows /\ k mod Rows < Rows /\ k / Rows < Cols.
Proof.
  intros Hk.
  assert (HR : Rows <> 0) by (intros ->; lia).
  pose proof (N.div_mod k Rows HR) as Hdm.
  pose proof (N.mod_lt k Rows HR) as Hm.
  repeat split; [lia | exact Hm |].
  apply N.Div0.div_lt_upper_bound. lia.
Qed.

(** Two positions with the same flat index are the same position. *)
Lemma flat_index_inj (n a b a' b' : N) :
  b < n -> b' < n -> a * n + b = a' * n + b' -> a = a' /\ b = b'.
Proof.
  intros Hb Hb' H.
  assert (Ha : a = a').
  { destruct (N.lt_trichotomy a a') as [Hlt | [Heq | Hgt]]; [| exact Heq |].
    - assert ((a + 1) * n <= a' * n) by (apply N.mul_le_mono_r; lia). lia.
    - assert ((a' + 1) * n <= a * n) by (apply N.mul_le_mono_r; lia). lia. }
  subst a'. split; [reflexivity | lia].
Qed.

(* ------------------------------------------------------------------ *)
(** ** Raw arrays *)

Section ArrayFacts.
Context {T : Type}.

Lemma length_update (a : list T) (i : nat) (x : T) :
  length (update a i x) = length a.
Proof.
  revert i; induction a as [| y a IH]; intros [| i]; simpl; auto.
Qed.

Lemma nth_error_update_same (a : list T) (i : nat) (x : T) :
  (i < length a)%nat -> nth_error (update a i x) i = Some x.
Proof.
  revert i; induction a as [| y a IH]; intros [| i] H; simpl in *;
    try lia; auto.
  apply IH. lia.
Qed.

Lemma nth_error_update_other (a : list T) (i j : nat) (x : T) :
  i <> j -> nth_error (update a i x) j = nth_error a j.
Proof.
  revert i j; induction a as [| y a IH]; intros [| i] [| j] H; simpl;
    try congruence; auto.
Qed.

Lemma read_Some (a : list T) (i : size_t) :
  i < N.of_nat (length a) -> exists x, read a i = Ok x /\
                                        nth_error a (N.to_nat i) = Some x.
Proof.
  intros H. unfold read.
  destruct (nth_error a (N.to_nat i)) as [x |] eqn:E; [eauto |].
  apply nth_error_None in E. lia.
Qed.

Lemma read_out_of_bounds (a : list T) (i : size_t) :
  N.of_nat (length a) <= i -> read a i = Undefined.
Proof.
  intros H. unfold read.
  destruct (nth_error a (N.to_nat i)) as [x |] eqn:E; [| reflexivity].
  assert (nth_error a (N.to_nat i) <> None) as E' by congruence.
  apply nth_error_Some in E'. lia.
Qed.

Lemma write_in_range (a : list T) (i : size_t) (x : T) :
  i < N.of_nat (length a) -> write a i x = Ok (update a (N.to_nat i) x).
Proof.
  intros H. unfold write.
  destruct (N.ltb_spec i (N.of_nat (length a))); [reflexivity | lia].
Qed.

(** Copying a whole array from a source of the same length gives the
    source. *)
Lemma memcpy_whole (dst src : list T) (n : size_t) :
  N.of_nat (length src) = n -> N.of_nat (length dst) = n ->
  memcpy dst src n = Ok src.
Proof.
  intros Hs Hd. unfold memcpy.
  rewrite Hs, Hd, N.leb_refl. simpl.
  replace (N.to_nat n) with (length src) at 1 by lia.
  replace (N.to_nat n) with (length dst) by lia.
  now rewrite firstn_all, skipn_all, app_nil_r.
Qed.
End ArrayFacts.

(* ------------------------------------------------------------------ *)
(** ** Loops *)

Section LoopFacts.
Context {S : Type}.

Lemma forM_app (l1 l2 : list size_t) (body : size_t -> M S unit) (s : S) :
  forM (l1 ++ l2) body s =
  bind (forM l1 body) (fun _ => forM l2 body) s.
Proof.
  revert s; induction l1 as [| i l1 IH]; intros s; simpl.
  - reflexivity.
  - unfold bind.
    destruct (body i s) as [[[] | e |] s'];
      [rewrite IH; reflexivity | reflexivity | reflexivity].
Qed.

Lemma range_succ (n : N) : range (n + 1) = range n ++ [n].
Proof.
  unfold range. replace (N.to_nat (n + 1)) with (Datatypes.S (N.to_nat n)) by lia.
  rewrite seq_S, map_app. simpl. now rewrite N2Nat.id.
Qed.

(** The rule for a counted loop: an invariant that holds before the loop
    and is kept by every iteration (which returns normally) holds after
    the loop, and the loop returns normally. *)
Lemma For_invariant (n : size_t) (body : size_t -> M S unit)
      (I : N -> S -> Prop) (s : S) :
  I 0 s ->
  (forall i s1, i < n -> I i s1 ->
                exists s2, body i s1 = (Ok tt, s2) /\ I (i + 1) s2) ->
  exists s', For n body s = (Ok tt, s') /\ I n s'.
Proof.
  intros H0 Hstep. unfold For.
  induction n as [| n IH] using N.peano_ind.
  - exists s. split; [reflexivity | exact H0].
  - destruct IH as [s1 [E1 I1]].
    { intros i s1 Hi. apply Hstep. lia. }
    destruct (Hstep n s1) as [s2 [E2 I2]]; [lia | exact I1 |].
    exists s2. rewrite <- N.add_1_r. split; [| exact I2].
    rewrite range_succ, forM_app. unfold bind. rewrite E1. simpl.
    unfold bind. rewrite E2. reflexivity.
Qed.
End LoopFacts.

(* ------------------------------------------------------------------ *)
(** ** Bulk assignment and checked access *)

Section Assignment.
Context {T : Type} {Sc : Scalar T}.

(** [Vector::Assign(values)] with a source of the right length replaces
    the elements by the source. *)
Lemma Vector_Assign_values_copies (Size : size_t) (v : Vector.t T Size)
      (values : list T) :
  Vector.wf v -> N.of_nat (length values) = Size ->
  Vector.Assign_values values v = (Ok tt, Vector.mk values).
Proof.
  intros Hwf Hlen. unfold Vector.Assign_values.
  rewrite (proj2 (N.eqb_eq _ _) Hlen). simpl.
  unfold bind, get, lift, put.
  now rewrite (memcpy_whole (Vector.data v) values Hlen Hwf).
Qed.

(** [Vector::Assign(values)] with a source of another length throws and
    leaves the vector as it was. *)
Lemma Vector_Assign_values_throws (Size : size_t) (v : Vector.t T Size)
      (values : list T) :
  N.of_nat (length values) <> Size ->
  Vector.Assign_values values v =
  (Throw (Error_Create "Vector" "Assign"
            "Specified std::vector::size does not match this vector's size."),
   v).
Proof.
  intros Hlen. unfold Vector.Assign_values.
  now rewrite (proj2 (N.eqb_neq _ _) Hlen).
Qed.

(** Checked read of a vector that holds [values]. *)
Lemma Vector_At_in_range (Size : size_t) (v : Vector.t T Size) (i : size_t) :
  Vector.wf v -> i < Size ->
  exists x, Vector.At v i = Ok x /\
            nth_error (Vector.data v) (N.to_nat i) = Some x.
Proof.
  intros Hwf Hi. unfold Vector.At.
  destruct (N.leb_spec Size i); [lia |].
  apply read_Some. unfold Vector.wf in Hwf. lia.
Qed.

(** The round trip of [Vector::Assign(values)] through [At]. *)
Lemma Vector_Assign_values_At (Size : size_t) (v : Vector.t T Size)
      (values : list T) :
  Vector.wf v -> N.of_nat (length values) = Size ->
  exists v', Vector.Assign_values values v = (Ok tt, v') /\
             forall i, i < Size ->
                       exists x, Vector.At v' i = Ok x /\
                                 nth_error values (N.to_nat i) = Some x.
Proof.
  intros Hwf Hlen. exists (Vector.mk values). split.
  - now apply Vector_Assign_values_copies.
  - intros i Hi.
    apply (Vector_At_in_range (v := Vector.mk values)); [exact Hlen | exact Hi].
Qed.

(** [Matrix::Assign(values)] never changes the matrix: a source of
    another length throws, and a source of the right length is not the
    array that is copied. *)
Lemma Matrix_Assign_values_keeps (Rows Cols : size_t)
      (m : Matrix.t T Rows Cols) (values : list T) :
  Matrix.wf m ->
  Matrix.Assign_values values m =
  (if (N.of_nat (length values) =? wrap (Rows * Cols))
   then Ok tt
   else Throw (runtime_error "Matrix::Assign: vector size mismatch."),
   m).
Proof.
  intros Hwf. unfold Matrix.Assign_values.
  destruct (N.of_nat (length values) =? wrap (Rows * Cols)); simpl.
  - unfold bind, get, lift, put.
    rewrite (memcpy_whole (Matrix.data m) (Matrix.data m) Hwf Hwf).
    now destruct m.
  - reflexivity.
Qed.

Lemma Matrix_Assign_values_throws (Rows Cols : size_t)
      (m : Matrix.t T Rows Cols) (values : list T) :
  N.of_nat (length values) <> wrap (Rows * Cols) ->
  Matrix.Assign_values values m =
  (Throw (runtime_error "Matrix::Assign: vector size mismatch."), m).
Proof.
  intros Hlen. unfold Matrix.Assign_values.
  now rewrite (proj2 (N.eqb_neq _ _) Hlen).
Qed.

(** C10: a bulk assignment from a sequence of the wrong length raises the
    size-mismatch error and leaves the container exactly as it was, for
    [Vector<Type, Size>] (length other than [Size]) and for
    [Matrix<Type, Rows, Cols>] (length other than [Rows * Cols], an
    element count that fits [size_t]). *)
Theorem Assign_values_failure_is_atomic :
  (forall (Size : size_t) (v : Vector.t T Size) (values : list T),
      N.of_nat (length values) <> Size ->
      exists e, Vector.Assign_values values v = (Throw e, v) /\
                kind e = Some SizeMismatch) /\
  (forall (Rows Cols : size_t) (m : Matrix.t T Rows Cols) (values : list T),
      Rows * Cols < size_max ->
      N.of_nat (length values) <> Rows * Cols ->
      exists e, Matrix.Assign_values values m = (Throw e, m) /\
                kind e = Some SizeMismatch).
Proof.
  split.
  - intros Size v values Hlen. eexists. split.
    + now apply Vector_Assign_values_throws.
    + reflexivity.
  - intros Rows Cols m values Hsz Hlen. eexists. split.
    + apply Matrix_Assign_values_throws. now rewrite wrap_small.
    + reflexivity.
Qed.

End Assignment.

Lemma Assign_values_failure_is_atomic_witness :
  (exists e,
      Vector.Assign_values [u32 7]
        (Vector.mk (Size := 2) [u32 1; u32 2]) =
      (Throw e, Vector.mk [u32 1; u32 2]) /\ kind e = Some SizeMismatch) /\
  (exists e,
      Matrix.Assign_values [u32 7; u32 8; u32 9]
        (Matrix.mk (Rows := 2) (Cols := 2) [u32 1; u32 2; u32 3; u32 4]) =
      (Throw e, Matrix.mk [u32 1; u32 2; u32 3; u32 4]) /\
      kind e = Some SizeMismatch).
Proof.
  split.
  - apply (proj1 (Assign_values_failure_is_atomic (T := uint32_t))).
    simpl. lia.
  - apply (proj2 (Assign_values_failure_is_atomic (T := uint32_t))).
    + reflexivity.
    + simpl. lia.
Defined.

(** C1: [Matrix::Assign(values)] with a source of the right length
    returns normally but copies [this->data] onto itself: a 2x2 matrix
    holding zeros still holds zeros after [Assign({1, 2, 3, 4})], and
    [At(1)] reads 0 where the source has 2. *)
Theorem Matrix_Assign_values_discards_source :
  let m := Matrix.mk (Rows := 2) (Cols := 2) [u32 0; u32 0; u32 0; u32 0] in
  let values := [u32 1; u32 2; u32 3; u32 4] in
  Matrix.Assign_values values m = (Ok tt, m) /\
  Matrix.At m 1 = Ok (u32 0) /\
  nth_error values 1 = Some (u32 2) /\
  u32 0 <> u32 2.
Proof.
  repeat split; try reflexivity. intros H. discriminate H.
Qed.

(* ------------------------------------------------------------------ *)
(** ** Checked access to a matrix *)

Section MatrixAccess.
Context {T : Type} {Sc : Scalar T}.

Lemma Matrix_At_in_range (Rows Cols : size_t) (m : Matrix.t T Rows Cols)
      (index : size_t) :
  Matrix.wf m -> index < wrap (Rows * Cols) ->
  exists x, Matrix.At m index = Ok x /\
            nth_error (Matrix.data m) (N.to_nat index) = Some x.
Proof.
  intros Hwf Hi. unfold Matrix.At.
  destruct (N.leb_spec (wrap (Rows * Cols)) index); [lia |].
  apply read_Some. unfold Matrix.wf in Hwf. lia.
Qed.

Lemma Matrix_At_out_of_range (Rows Cols : size_t) (m : Matrix.t T Rows Cols)
      (index : size_t) :
  wrap (Rows * Cols) <= index ->
  Matrix.At m index = Throw (out_of_range "Matrix::At: index out of range.").
Proof.
  intros Hi. unfold Matrix.At.
  destruct (N.leb_spec (wrap (Rows * Cols)) index); [reflexivity | lia].
Qed.

Lemma Matrix_At_set_in_range (Rows Cols : size_t) (m : Matrix.t T Rows Cols)
      (index : size_t) (x : T) :
  Matrix.wf m -> index < wrap (Rows * Cols) ->
  Matrix.At_set index x m =
  (Ok tt, Matrix.mk (update (Matrix.data m) (N.to_nat index) x)).
Proof.
  intros Hwf Hi. unfold Matrix.At_set.
  destruct (N.leb_spec (wrap (Rows * Cols)) index); [lia |].
  unfold bind, get, lift, put.
  rewrite write_in_range; [reflexivity |].
  unfold Matrix.wf in Hwf. lia.
Qed.

Lemma flat_index_wrap (Rows row col : N) :
  wrap (wrap (col * Rows) + row) = wrap (col * Rows + row).
Proof. unfold wrap. now rewrite N.Div0.add_mod_idemp_l. Qed.

(** Reading and writing at an in-range (row, col). *)
Lemma Matrix_At_rc_in_range (Rows Cols : size_t) (m : Matrix.t T Rows Cols)
      (row col : size_t) :
  Matrix.wf m -> Rows * Cols < size_max -> row < Rows -> col < Cols ->
  exists x, Matrix.At_rc m row col = Ok x /\
            nth_error (Matrix.data m) (N.to_nat (col * Rows + row)) = Some x.
Proof.
  intros Hwf Hsz Hr Hc. unfold Matrix.At_rc.
  destruct (flat_index_in_range Hsz Hr Hc) as [-> Hlt].
  apply Matrix_At_in_range; [exact Hwf |]. now rewrite wrap_small.
Qed.

Lemma Matrix_At_rc_set_in_range (Rows Cols : size_t)
      (m : Matrix.t T Rows Cols) (row col : size_t) (x : T) :
  Matrix.wf m -> Rows * Cols < size_max -> row < Rows -> col < Cols ->
  Matrix.At_rc_set row col x m =
  (Ok tt, Matrix.mk (update (Matrix.data m) (N.to_nat (col * Rows + row)) x)).
Proof.
  intros Hwf Hsz Hr Hc. unfold Matrix.At_rc_set.
  destruct (flat_index_in_range Hsz Hr Hc) as [-> Hlt].
  apply Matrix_At_set_in_range; [exact Hwf |]. now rewrite wrap_small.
Qed.

(** C3, as the code has it: [At(row, col)] computes the flat index
    [col * Rows + row] in [size_t] arithmetic and delegates to the checked
    [At(index)].  It raises IndexOutOfRange exactly when that index is not
    below [Rows * Cols], and otherwise returns the element at that index.
    So every [row < Rows], [col < Cols] returns the element at
    [col * Rows + row], and every [col >= Cols] whose index does not wrap
    around raises; a [row >= Rows] on its own is not detected. *)
Theorem Matrix_At_rc_checks_flat_index (Rows Cols : size_t)
        (m : Matrix.t T Rows Cols) (row col : size_t) :
  Matrix.wf m -> Rows * Cols < size_max ->
  Matrix.At_rc m row col = Matrix.At m (wrap (col * Rows + row)) /\
  (Rows * Cols <= wrap (col * Rows + row) <->
   raises (Matrix.At_rc m row col) IndexOutOfRange) /\
  (wrap (col * Rows + row) < Rows * Cols <->
   exists x, Matrix.At_rc m row col = Ok x /\
             nth_error (Matrix.data m)
                       (N.to_nat (wrap (col * Rows + row))) = Some x) /\
  (row < Rows -> col < Cols ->
   exists x, Matrix.At_rc m row col = Ok x /\
             nth_error (Matrix.data m) (N.to_nat (col * Rows + row)) = Some x) /\
  (Cols <= col -> col * Rows + row < size_max ->
   raises (Matrix.At_rc m row col) IndexOutOfRange).
Proof.
  intros Hwf Hsz.
  assert (Hdel : Matrix.At_rc m row col = Matrix.At m (wrap (col * Rows + row))).
  { unfold Matrix.At_rc. now rewrite flat_index_wrap. }
  assert (Hout : Rows * Cols <= wrap (col * Rows + row) ->
                 raises (Matrix.At_rc m row col) IndexOutOfRange).
  { intros Hge. rewrite Hdel, Matrix_At_out_of_range.
    - eexists. split; reflexivity.
    - now rewrite (wrap_small Hsz). }
  assert (Hin : wrap (col * Rows + row) < Rows * Cols ->
                exists x, Matrix.At_rc m row col = Ok x /\
                          nth_error (Matrix.data m)
                            (N.to_nat (wrap (col * Rows + row))) = Some x).
  { intros Hlt. rewrite Hdel. apply Matrix_At_in_range; [exact Hwf |].
    now rewrite (wrap_small Hsz). }
  split; [exact Hdel |]. split; [| split; [| split]].
  - split; [exact Hout |].
    intros [e [He _]].
    destruct (N.le_gt_cases (Rows * Cols) (wrap (col * Rows + row)))
      as [Hge | Hlt]; [exact Hge |].
    destruct (Hin Hlt) as [x [Hx _]]. congruence.
  - split; [exact Hin |].
    intros [x [Hx _]].
    destruct (N.le_gt_cases (Rows * Cols) (wrap (col * Rows + row)))
      as [Hge | Hlt]; [| exact Hlt].
    destruct (Hout Hge) as [e [He _]]. congruence.
  - intros Hr Hc. now apply Matrix_At_rc_in_range.
  - intros Hc Hnw. apply Hout. rewrite (wrap_small Hnw). nia.
Qed.

End MatrixAccess.

Lemma Matrix_At_rc_checks_flat_index_witness :
  let m := Matrix.mk (Rows := 2) (Cols := 2) [u32 1; u32 2; u32 3; u32 4] in
  Matrix.At_rc m 1 1 = Matrix.At m (wrap (1 * 2 + 1)) /\
  (2 * 2 <= wrap (1 * 2 + 1) <-> raises (Matrix.At_rc m 1 1) IndexOutOfRange) /\
  (wrap (1 * 2 + 1) < 2 * 2 <->
   exists x, Matrix.At_rc m 1 1 = Ok x /\
             nth_error (Matrix.data m) (N.to_nat (wrap (1 * 2 + 1))) = Some x) /\
  (1 < 2 -> 1 < 2 ->
   exists x, Matrix.At_rc m 1 1 = Ok x /\
             nth_error (Matrix.data m) (N.to_nat (1 * 2 + 1)) = Some x) /\
  (2 <= 1 -> 1 * 2 + 1 < size_max ->
   raises (Matrix.At_rc m 1 1) IndexOutOfRange).
Proof.
  intros m.
  apply (Matrix_At_rc_checks_flat_index (T := uint32_t) (m := m) 1 1);
    reflexivity.
Defined.

(** C3 fails as stated: in a 2x2 matrix [At(2, 0)] (row out of range)
    returns the element at flat index 2, and [At(0, 2^63)] (column out of
    range, the index wraps to 0) returns the element at flat index 0. *)
Lemma Matrix_At_rc_row_or_col_out_of_range_not_raised :
  ~ (forall (Rows Cols : size_t) (m : Matrix.t uint32_t Rows Cols)
            (row col : size_t),
        Matrix.wf m -> Rows * Cols < size_max ->
        row < size_max -> col < size_max -> Rows <= row ->
        raises (Matrix.At_rc m row col) IndexOutOfRange) /\
  ~ (forall (Rows Cols : size_t) (m : Matrix.t uint32_t Rows Cols)
            (row col : size_t),
        Matrix.wf m -> Rows * Cols < size_max ->
        row < size_max -> col < size_max -> Cols <= col ->
        raises (Matrix.At_rc m row col) IndexOutOfRange).
Proof.
  pose (m := Matrix.mk (T := uint32_t) (Rows := 2) (Cols := 2)
               [u32 1; u32 2; u32 3; u32 4]).
  split; intros H.
  - assert (Hr : raises (Matrix.At_rc m 2 0) IndexOutOfRange)
      by (apply H; try reflexivity; discriminate).
    destruct Hr as [e [He _]]. discriminate He.
  - assert (Hr : raises (Matrix.At_rc m 0 (2 ^ 63)) IndexOutOfRange)
      by (apply H; try reflexivity; discriminate).
    destruct Hr as [e [He _]]. discriminate He.
Qed.

(* ------------------------------------------------------------------ *)
(** ** The diagonal fill *)

(** Apply the loop rule to the first counted loop of the goal. *)
Ltac loop_invariant Inv s' E HI :=
  match goal with
  | |- context [For ?n ?b ?s] =>
      destruct (@For_invariant _ n b Inv s) as [s' [E HI]];
      [ | | try rewrite E ]
  end.

Section DiagonalFill.
Context {T : Type} {Sc : Scalar T}.

(** What [Assign(diagonal)] writes: the running index walks the array in
    the order of the two loops, row by row, so the element written for
    (row, col) is the one at [row * Cols + col]. *)
Lemma Matrix_Assign_diagonal_row_major (Rows Cols : size_t)
      (m : Matrix.t T Rows Cols) (diagonal : T) :
  Matrix.wf m -> Rows * Cols < size_max ->
  exists m', Matrix.Assign_diagonal diagonal m = (Ok tt, m') /\
             Matrix.wf m' /\
             forall row col, row < Rows -> col < Cols ->
               nth_error (Matrix.data m') (N.to_nat (row * Cols + col)) =
               Some (if row =? col then diagonal else zero).
Proof.
  intros Hwf Hsz. unfold Matrix.Assign_diagonal. cbv zeta.
  pose (filled := fun (row col : N) (s : Matrix.t T Rows Cols * size_t) =>
          Matrix.wf (fst s) /\ snd s = row * Cols + col /\
          forall r c, r < Rows -> c < Cols -> r * Cols + c < row * Cols + col ->
            nth_error (Matrix.data (fst s)) (N.to_nat (r * Cols + c)) =
            Some (if r =? c then diagonal else zero)).
  loop_invariant (fun row s => filled row 0 s) s' E HI.
  - unfold filled; simpl. split; [exact Hwf | split; [lia |]].
    intros r c _ _ H. lia.
  - intros row s1 Hrow Hs1.
    loop_invariant (fun col s => filled row col s) s2 E2 HI2.
    + exact Hs1.
    + intros col [m1 i] Hcol Hs. unfold filled in Hs |- *.
      destruct Hs as (Hwf1 & Hi & Hfill). simpl in Hwf1, Hi, Hfill.
      unfold bind, get, lift, put. simpl fst. simpl snd.
      assert (Hlt : i < Rows * Cols) by nia.
      assert (Hlen : N.of_nat (length (Matrix.data m1)) = Rows * Cols)
        by (rewrite <- (wrap_small Hsz); exact Hwf1).
      rewrite write_in_range by lia.
      eexists. split; [reflexivity |]. simpl.
      split; [| split].
      * unfold Matrix.wf in *. simpl. now rewrite length_update.
      * rewrite wrap_small; lia.
      * intros r c Hr Hc Hbelow.
        destruct (N.eq_dec (r * Cols + c) i) as [Heq | Hne].
        -- rewrite Heq, nth_error_update_same by lia.
           assert (r = row /\ c = col) as [-> ->]
               by (apply (@flat_index_inj Cols); lia).
           reflexivity.
        -- rewrite nth_error_update_other by lia.
           apply Hfill; try assumption. lia.
    + exists s2. split; [reflexivity |]. unfold filled in HI2 |- *.
      destruct HI2 as (Hwf2 & Hi2 & Hfill2).
      split; [exact Hwf2 | split; [lia |]].
      intros r c Hr Hc Hbelow. apply Hfill2; try assumption. lia.
  - unfold filled in HI. destruct HI as (Hwf' & Hi' & Hfill'). simpl.
    exists (fst s'). split; [reflexivity | split; [exact Hwf' |]].
    intros row col Hr Hc. apply Hfill'; try assumption. nia.
Qed.

(** For a square matrix the row-by-row order does not matter: the
    element at (row, col), flat index [col * Rows + row], is [diagonal]
    when [row = col] and 0 otherwise. *)
Lemma Matrix_Assign_diagonal_square (Size : size_t)
      (m : Matrix.t T Size Size) (diagonal : T) :
  Matrix.wf m -> Size * Size < size_max ->
  exists m', Matrix.Assign_diagonal diagonal m = (Ok tt, m') /\
             Matrix.wf m' /\
             forall row col, row < Size -> col < Size ->
               Matrix.At_rc m' row col =
               Ok (if row =? col then diagonal else zero).
Proof.
  intros Hwf Hsz.
  destruct (Matrix_Assign_diagonal_row_major diagonal Hwf Hsz)
    as (m' & E & Hwf' & Hfill).
  exists m'. repeat split; [exact E | exact Hwf' |].
  intros row col Hr Hc.
  destruct (Matrix_At_rc_in_range Hwf' Hsz Hr Hc) as (x & Hx & Hnth).
  rewrite Hx. rewrite (Hfill col row Hc Hr) in Hnth.
  rewrite N.eqb_sym. congruence.
Qed.

End DiagonalFill.

(** C2: on a 2x3 matrix [Assign(7)] fills the array row by row and gives
    [{7, 0, 0, 0, 7, 0}]: the diagonal position (1, 1), flat index
    [1 * 2 + 1 = 3], holds 0, and the off-diagonal position (0, 2), flat
    index [2 * 2 + 0 = 4], holds 7. *)
Theorem Matrix_Assign_diagonal_2x3_misplaced :
  let m := Matrix.mk (Rows := 2) (Cols := 3)
             [u32 9; u32 9; u32 9; u32 9; u32 9; u32 9] in
  let m' := Matrix.mk (Rows := 2) (Cols := 3)
              [u32 7; u32 0; u32 0; u32 0; u32 7; u32 0] in
  Matrix.Assign_diagonal (u32 7) m = (Ok tt, m') /\
  Matrix.At_rc m' 1 1 = Ok (u32 0) /\
  Matrix.At_rc m' 0 2 = Ok (u32 7) /\
  u32 0 <> u32 7.
Proof.
  repeat split; try (vm_compute; reflexivity). intros H. discriminate H.
Qed.

(* ------------------------------------------------------------------ *)
(** ** Equality of matrices *)

Section Extensionality.
Context {T : Type} {Sc : Scalar T}.

(** Two matrices of one shape that agree at every (row, col) are equal. *)
Lemma Matrix_ext (Rows Cols : size_t) (a b : Matrix.t T Rows Cols) :
  Matrix.wf a -> Matrix.wf b -> Rows * Cols < size_max ->
  (forall row col, row < Rows -> col < Cols ->
                   Matrix.At_rc a row col = Matrix.At_rc b row col) ->
  a = b.
Proof.
  intros Ha Hb Hsz Hagree.
  assert (Hdata : Matrix.data a = Matrix.data b).
  { apply nth_error_ext. intros i.
    unfold Matrix.wf in Ha, Hb. rewrite (wrap_small Hsz) in Ha, Hb.
    destruct (N.lt_ge_cases (N.of_nat i) (Rows * Cols)) as [Hlt | Hge].
    - destruct (@flat_index_decompose Rows Cols _ Hlt) as (Hi & Hr & Hc).
      assert (Ha' : Matrix.wf a) by (unfold Matrix.wf; now rewrite wrap_small).
      assert (Hb' : Matrix.wf b) by (unfold Matrix.wf; now rewrite wrap_small).
      destruct (Matrix_At_rc_in_range Ha' Hsz Hr Hc) as (x & Hx & Hnx).
      destruct (Matrix_At_rc_in_range Hb' Hsz Hr Hc) as (y & Hy & Hny).
      rewrite (Hagree _ _ Hr Hc) in Hx.
      rewrite <- Hi, Nat2N.id in Hnx, Hny. congruence.
    - rewrite (proj2 (nth_error_None (Matrix.data a) i)) by lia.
      rewrite (proj2 (nth_error_None (Matrix.data b) i)) by lia.
      reflexivity. }
  destruct a, b. simpl in Hdata. now subst.
Qed.

End Extensionality.

(* ------------------------------------------------------------------ *)
(** ** Products *)

Section Products.
Context {T : Type} {Sc : Scalar T}.

Lemma sum_upto_succ (n : N) (f : N -> T) :
  sum_upto (n + 1) f = add (sum_upto n f) (f n).
Proof.
  unfold sum_upto. now rewrite range_succ, fold_left_app.
Qed.

Lemma Matrix_At_rc_entry (Rows Cols : size_t) (m : Matrix.t T Rows Cols)
      (row col : size_t) :
  Matrix.wf m -> Rows * Cols < size_max -> row < Rows -> col < Cols ->
  Matrix.At_rc m row col = Ok (entry m row col).
Proof.
  intros Hwf Hsz Hr Hc.
  destruct (Matrix_At_rc_in_range Hwf Hsz Hr Hc) as (x & Hx & Hnx).
  rewrite Hx. unfold entry. now rewrite (nth_error_nth _ _ zero Hnx).
Qed.

(** The inner loop of both products: [dot] accumulates the sum of the
    products the loop body reads. *)
Lemma dot_loop (n : size_t) (a b : size_t -> outcome T) (f g : N -> T) :
  (forall m, m < n -> a m = Ok (f m)) ->
  (forall m, m < n -> b m = Ok (g m)) ->
  exec (For n (fun m =>
          x <- lift (a m) ;;
          y <- lift (b m) ;;
          dot <- get ;;
          put (add dot (mul x y)))%M) zero =
  Ok (sum_upto n (fun m => mul (f m) (g m))).
Proof.
  intros Ha Hb. unfold exec.
  loop_invariant (fun j (dot : T) => dot = sum_upto j (fun m => mul (f m) (g m)))
                 dot E HI.
  - reflexivity.
  - intros m dot Hm ->. unfold bind, lift, get, put.
    rewrite (Ha m Hm), (Hb m Hm). eexists. split; [reflexivity |].
    now rewrite sum_upto_succ.
  - now subst dot.
Qed.

(** [Multiply(mat)] returns normally, overwrites every element of the
    result and computes [result(row, col)] as the sum over [m < Cols] of
    [this(row, m) * mat(m, col)]. *)
Lemma Matrix_Multiply_spec (Rows Cols Cols2 : size_t)
      (uninit : Matrix.t T Rows Cols2)
      (a : Matrix.t T Rows Cols) (b : Matrix.t T Cols Cols2) :
  Matrix.wf a -> Matrix.wf b -> Matrix.wf uninit ->
  Rows * Cols < size_max -> Cols * Cols2 < size_max ->
  Rows * Cols2 < size_max ->
  exists p, Matrix.Multiply uninit a b = Ok p /\ Matrix.wf p /\
            forall row col, row < Rows -> col < Cols2 ->
              Matrix.At_rc p row col =
              Ok (sum_upto Cols (fun m => mul (entry a row m) (entry b m col))).
Proof.
  intros Hwfa Hwfb Hwfu Hsa Hsb Hsp.
  pose (prod := fun row col =>
                  sum_upto Cols (fun m => mul (entry a row m) (entry b m col))).
  pose (done := fun (row col : N) (s : Matrix.t T Rows Cols2) =>
          Matrix.wf s /\
          forall r c, r < Rows -> c < Cols2 ->
            r * Cols2 + c < row * Cols2 + col ->
            nth_error (Matrix.data s) (N.to_nat (c * Rows + r)) =
            Some (prod r c)).
  unfold Matrix.Multiply. unfold exec at 1.
  loop_invariant (fun row s => done row 0 s) p E HI.
  - unfold done. split; [exact Hwfu |]. intros r c _ _ H. lia.
  - intros row s1 Hrow Hs1.
    loop_invariant (fun col s => done row col s) s2 E2 HI2.
    + exact Hs1.
    + intros col s Hcol Hs. unfold done in Hs |- *.
      destruct Hs as (Hwfs & Hdone).
      unfold bind at 1. unfold lift at 1.
      assert (Hdot := @dot_loop Cols
                        (fun m => Matrix.At_rc a row m)
                        (fun m => Matrix.At_rc b m col)
                        (fun m => entry a row m) (fun m => entry b m col)).
      cbv beta in Hdot.
      rewrite Hdot by (intros m Hm; now apply Matrix_At_rc_entry).
      rewrite (Matrix_At_rc_set_in_range _ Hwfs Hsp Hrow Hcol).
      eexists. split; [reflexivity |].
      assert (Hlen : N.of_nat (length (Matrix.data s)) = Rows * Cols2)
        by (rewrite <- (wrap_small Hsp); exact Hwfs).
      split.
      * unfold Matrix.wf in *. simpl. now rewrite length_update.
      * intros r c Hr Hc Hbelow. simpl.
        destruct (N.eq_dec (c * Rows + r) (col * Rows + row)) as [Heq | Hne].
        -- assert (c = col /\ r = row) as [-> ->]
               by (apply (@flat_index_inj Rows); lia).
           rewrite nth_error_update_same by nia. reflexivity.
        -- rewrite nth_error_update_other by lia.
           apply Hdone; try assumption.
           assert (r * Cols2 + c <> row * Cols2 + col); [| lia].
           intros Hsame.
           assert (r = row /\ c = col) as [-> ->]
               by (apply (@flat_index_inj Cols2); lia).
           now apply Hne.
    + exists s2. split; [reflexivity |]. unfold done in HI2 |- *.
      destruct HI2 as (Hwf2 & Hdone2). split; [exact Hwf2 |].
      intros r c Hr Hc Hbelow. apply Hdone2; try assumption. lia.
  - unfold done in HI. destruct HI as (Hwfp & Hdone).
    exists p. split; [reflexivity | split; [exact Hwfp |]].
    intros row col Hr Hc.
    destruct (Matrix_At_rc_in_range Hwfp Hsp Hr Hc) as (x & Hx & Hnx).
    rewrite Hdone in Hnx by (try assumption; nia).
    unfold prod in Hnx. congruence.
Qed.

End Products.

(* ------------------------------------------------------------------ *)
(** ** The identity matrix *)

Section IdentityProducts.
Context {T : Type} {Sc : Scalar T}.
Hypothesis Tring : ScalarRing T.

Add Ring T_ring : (Tring : ring_theory zero one add mul sub opp (@eq T)).

(** A sum whose terms vanish except at [k] is the term at [k]. *)
Lemma sum_upto_single (n k : N) (f : N -> T) :
  (forall m, m < n -> m <> k -> f m = zero) ->
  sum_upto n f = if k <? n then f k else zero.
Proof.
  induction n as [| n IH] using N.peano_ind; intros Hf.
  - destruct (N.ltb_spec k 0); [lia | reflexivity].
  - rewrite <- N.add_1_r, sum_upto_succ, IH
      by (intros m Hm Hk; apply Hf; [lia | exact Hk]).
    destruct (N.ltb_spec k n) as [Hlt | Hge];
      destruct (N.ltb_spec k (n + 1)) as [Hlt' | Hge']; try lia.
    + rewrite (Hf n) by lia. ring.
    + assert (k = n) as -> by lia. ring.
    + rewrite (Hf n) by lia. ring.
Qed.

Lemma Matrix_Identity_entry (Size : size_t) (uninit : Matrix.t T Size Size) :
  Matrix.wf uninit -> Size * Size < size_max ->
  exists I, Matrix.Identity uninit = Ok I /\ Matrix.wf I /\
            forall row col, row < Size -> col < Size ->
              entry I row col = if row =? col then one else zero.
Proof.
  intros Hwf Hsz.
  destruct (Matrix_Assign_diagonal_square one Hwf Hsz) as (I & E & HwfI & HI).
  exists I. unfold Matrix.Identity, Matrix.ctor_diagonal, exec. rewrite E.
  split; [reflexivity | split; [exact HwfI |]].
  intros row col Hr Hc.
  specialize (HI row col Hr Hc).
  rewrite (Matrix_At_rc_entry HwfI Hsz Hr Hc) in HI. congruence.
Qed.


End IdentityProducts.



(** On finite elements the products with [Identity()] are exact: the
    [Matrix<double,2,2>] holding [{1, 2, 3, 4}] is returned by both. *)
Example Matrix_Identity_double_2x2 :
  let storage := Matrix.mk (Rows := 2) (Cols := 2) [0; 0; 0; 0]%float in
  let m := Matrix.mk (Rows := 2) (Cols := 2) [1; 2; 3; 4]%float in
  (let! I := Matrix.Identity storage in Matrix.Multiply storage I m) = Ok m /\
  (let! I := Matrix.Identity storage in Matrix.Multiply storage m I) = Ok m.
Proof. split; vm_compute; reflexivity. Qed.

(* ------------------------------------------------------------------ *)
(** ** The cross product *)

Section CrossProduct.
Context {T : Type} {Sc : Scalar T}.
Hypothesis Tring : ScalarRing T.

Add Ring T_ring_cross : (Tring : ring_theory zero one add mul sub opp (@eq T)).

(** A well-formed 3-vector is its three elements. *)
Lemma Vector3_elements (v : Vector.t T 3) :
  Vector.wf v -> exists x y z, v = Vector.mk [x; y; z].
Proof.
  destruct v as [[| x [| y [| z [| w d]]]]]; unfold Vector.wf; simpl;
    intros H; try discriminate H; try lia.
  now exists x, y, z.
Qed.

(** [Cross] returns normally and overwrites the three elements of the
    result. *)
Lemma Vector_Cross_elements (uninit : Vector.t T 3) (a0 a1 a2 b0 b1 b2 : T) :
  Vector.wf uninit ->
  Vector.Cross uninit (Vector.mk [a0; a1; a2]) (Vector.mk [b0; b1; b2]) =
  Ok (Vector.mk [sub (mul a1 b2) (mul a2 b1);
                 sub (mul a2 b0) (mul a0 b2);
                 sub (mul a0 b1) (mul a1 b0)]).
Proof.
  intros Hu. destruct (Vector3_elements Hu) as (x & y & z & ->).
  reflexivity.
Qed.


End CrossProduct.



(* ------------------------------------------------------------------ *)
(** ** Matrix times vector *)

Section LoopFailure.
Context {S : Type}.

Lemma range_split (n k : N) :
  k < n -> exists rest, range n = range k ++ k :: rest.
Proof.
  intros Hk. unfold range.
  replace (N.to_nat n) with (N.to_nat k + Datatypes.S (N.to_nat (n - k - 1)))%nat
    by lia.
  rewrite seq_app, map_app. simpl. rewrite N2Nat.id. eauto.
Qed.

(** A counted loop whose iteration [k] is undefined, after [k] iterations
    that return normally, is undefined. *)
Lemma For_undefined (n k : size_t) (body : size_t -> M S unit)
      (I : N -> S -> Prop) (s : S) :
  k < n -> I 0 s ->
  (forall i s1, i < k -> I i s1 ->
                exists s2, body i s1 = (Ok tt, s2) /\ I (i + 1) s2) ->
  (forall s1, I k s1 -> exists s2, body k s1 = (Undefined, s2)) ->
  exists s', For n body s = (Undefined, s').
Proof.
  intros Hk H0 Hstep Hbad.
  destruct (For_invariant (n := k) body I s H0 Hstep) as (s1 & E1 & I1).
  destruct (Hbad s1 I1) as (s2 & E2).
  destruct (range_split Hk) as (rest & Hrange).
  exists s2. unfold For in *. rewrite Hrange, forM_app.
  unfold bind at 1. rewrite E1. simpl. unfold bind. now rewrite E2.
Qed.
End LoopFailure.

Section MatrixVector.
Context {T : Type} {Sc : Scalar T}.

Lemma Vector_read_component (Size : size_t) (v : Vector.t T Size) (i : size_t) :
  Vector.wf v -> i < Size -> read (Vector.data v) i = Ok (component v i).
Proof.
  intros Hwf Hi.
  destruct (read_Some (Vector.data v) (i := i)) as (x & Hx & Hnx);
    [unfold Vector.wf in Hwf; lia |].
  rewrite Hx. unfold component. now rewrite (nth_error_nth _ _ zero Hnx).
Qed.

Lemma Vector_index_set_in_range (Size : size_t) (v : Vector.t T Size)
      (i : size_t) (x : T) :
  Vector.wf v -> i < Size ->
  Vector.index_set i x v =
  (Ok tt, Vector.mk (update (Vector.data v) (N.to_nat i) x)).
Proof.
  intros Hwf Hi. unfold Vector.index_set, bind, get, lift, put.
  rewrite write_in_range; [reflexivity |]. unfold Vector.wf in Hwf. lia.
Qed.

(** When the matrix has no more columns than rows, [Multiply(vec)]
    returns normally and its element [row] is the sum over [m < Cols] of
    [this(row, m) * vec[m]]. *)
Lemma Matrix_Multiply_vec_spec (Rows Cols : size_t)
      (uninit vec : Vector.t T Rows) (a : Matrix.t T Rows Cols) :
  Matrix.wf a -> Vector.wf vec -> Vector.wf uninit ->
  Rows * Cols < size_max -> Cols <= Rows ->
  exists r, Matrix.Multiply_vec uninit a vec = Ok r /\ Vector.wf r /\
            forall row, row < Rows ->
              Vector.At r row =
              Ok (sum_upto Cols
                    (fun m => mul (entry a row m) (component vec m))).
Proof.
  intros Hwfa Hwfv Hwfu Hsz Hle.
  pose (prod := fun row =>
          sum_upto Cols (fun m => mul (entry a row m) (component vec m))).
  pose (done := fun (row : N) (s : Vector.t T Rows) =>
          Vector.wf s /\
          forall r, r < row ->
            nth_error (Vector.data s) (N.to_nat r) = Some (prod r)).
  unfold Matrix.Multiply_vec. unfold exec at 1.
  loop_invariant done r E HI.
  - unfold done. split; [exact Hwfu |]. intros r H. lia.
  - intros row s Hrow Hs. unfold done in Hs |- *.
    destruct Hs as (Hwfs & Hdone).
    unfold bind at 1. unfold lift at 1.
    assert (Hdot := @dot_loop _ _ Cols
                      (fun m => Matrix.At_rc a row m)
                      (fun m => read (Vector.data vec) m)
                      (fun m => entry a row m) (fun m => component vec m)).
    cbv beta in Hdot.
    rewrite Hdot
      by (intros m Hm;
          first [now apply Matrix_At_rc_entry
                | apply Vector_read_component; [exact Hwfv | lia]]).
    rewrite (Vector_index_set_in_range _ Hwfs Hrow).
    eexists. split; [reflexivity |]. split.
    + unfold Vector.wf in *. simpl. now rewrite length_update.
    + intros r Hr. simpl.
      destruct (N.eq_dec r row) as [-> | Hne].
      * rewrite nth_error_update_same; [reflexivity |].
        unfold Vector.wf in Hwfs. lia.
      * rewrite nth_error_update_other by lia. apply Hdone. lia.
  - unfold done in HI. destruct HI as (Hwfr & Hdone).
    exists r. split; [reflexivity | split; [exact Hwfr |]].
    intros row Hrow.
    destruct (Vector_At_in_range Hwfr Hrow) as (x & Hx & Hnx).
    rewrite Hdone in Hnx by assumption. unfold prod in Hnx. congruence.
Qed.

(** When the matrix has more columns than rows, the first row already
    reads [vec.data[Rows]], one past the end of the vector. *)
Lemma Matrix_Multiply_vec_reads_past_end (Rows Cols : size_t)
      (uninit vec : Vector.t T Rows) (a : Matrix.t T Rows Cols) :
  Matrix.wf a -> Vector.wf vec ->
  Rows * Cols < size_max -> 0 < Rows -> Rows < Cols ->
  Matrix.Multiply_vec uninit a vec = Undefined.
Proof.
  intros Hwfa Hwfv Hsz Hpos Hlt.
  unfold Matrix.Multiply_vec. unfold exec at 1.
  destruct (range_split Hpos) as (rest & Hrange).
  unfold For at 1. rewrite Hrange. simpl.
  unfold bind at 1. unfold bind at 1. unfold lift at 1. unfold exec.
  match goal with
  | |- context [For Cols ?b zero] =>
      destruct (@For_undefined _ Cols Rows b (fun _ _ => True) zero)
        as (s' & E)
  end.
  - exact Hlt.
  - exact I.
  - intros m dot Hm _. unfold bind, lift, get, put.
    rewrite (Matrix_At_rc_entry Hwfa Hsz Hpos) by lia.
    rewrite (Vector_read_component Hwfv Hm). eauto.
  - intros dot _. unfold bind, lift.
    rewrite (Matrix_At_rc_entry Hwfa Hsz Hpos Hlt).
    rewrite read_out_of_bounds by (unfold Vector.wf in Hwfv; lia). eauto.
  - rewrite E. reflexivity.
Qed.

End MatrixVector.

(** C5: [Multiply(vec)] is declared on [Vector<Type, Rows>].  On a 1x2
    matrix the vector it accepts has 1 element, the row count, and the
    loop over the 2 columns reads [vec.data[1]], past the end of the
    vector: the result is undefined. *)
Theorem Matrix_Multiply_vec_1x2_reads_past_vector :
  let m := Matrix.mk (Rows := 1) (Cols := 2) [u32 1; u32 1] in
  let vec := Vector.mk (Size := 1) [u32 5] in
  let uninit := Vector.mk (Size := 1) [u32 0] in
  Matrix.wf m /\ Vector.wf vec /\
  read (Vector.data vec) 1 = Undefined /\
  Matrix.Multiply_vec uninit m vec = Undefined.
Proof. repeat split. Qed.

(* ------------------------------------------------------------------ *)
(** ** Translation *)

Section TranslationFacts.
Context {T : Type} {Sc : Scalar T}.

(** [Translation(delta)] builds its result with the constructor from a
    sequence, hence with [Assign(values)]: the result is the storage the
    object started with. *)
Lemma Matrix_Translation_keeps_storage (uninit : Matrix.t T 4 4)
      (delta : Vector.t T 3) :
  Matrix.wf uninit -> Vector.wf delta ->
  Matrix.Translation uninit delta = Ok uninit.
Proof.
  intros Hu Hd.
  destruct delta as [[| x [| y [| z [| w d]]]]]; unfold Vector.wf in Hd;
    simpl in Hd; try discriminate Hd; try lia.
  unfold Matrix.Translation, Vector.index, read. simpl.
  unfold Matrix.ctor_values, exec.
  now rewrite (Matrix_Assign_values_keeps _ Hu).
Qed.

End TranslationFacts.

(** The product the specification describes, on the matrix it describes:
    the last column holds the translated point. *)
Example translation_matrix_times_point :
  Matrix.Multiply_vec (Vector.mk (Size := 4) [0; 0; 0; 0]%float)
                      (translation_matrix 1 2 3)
                      (Vector.mk [0; 0; 0; 1]%float) =
  Ok (Vector.mk [1; 2; 3; 1]%float).
Proof. vm_compute. reflexivity. Qed.

(** C6: [Matrix<double,4,4>::Translation({1, 2, 3})] on storage that
    holds zeros returns that storage, not the translation matrix, and
    its product with [Vector<double,4>({0, 0, 0, 1})] is [{0, 0, 0, 0}],
    not [{1, 2, 3, 1}]. *)
Theorem Matrix_Translation_returns_initial_storage :
  let storage := Matrix.mk (Rows := 4) (Cols := 4) (repeat 0%float 16) in
  let zeros3 := Vector.mk (Size := 3) [0; 0; 0]%float in
  let zeros4 := Vector.mk (Size := 4) [0; 0; 0; 0]%float in
  (let! delta := Vector.ctor_values zeros3 [1; 2; 3]%float in
   Matrix.Translation storage delta) = Ok storage /\
  storage <> translation_matrix 1 2 3 /\
  (let! delta := Vector.ctor_values zeros3 [1; 2; 3]%float in
   let! translation := Matrix.Translation storage delta in
   let! point := Vector.ctor_values zeros4 [0; 0; 0; 1]%float in
   Matrix.Multiply_vec zeros4 translation point) = Ok zeros4 /\
  zeros4 <> Vector.mk [1; 2; 3; 1]%float.
Proof.
  intros storage zeros3 zeros4.
  split; [vm_compute; reflexivity |].
  split.
  { intros H.
    apply (f_equal (fun m => PrimFloat.eqb (entry m 0 0) 1)) in H.
    vm_compute in H. discriminate H. }
  split; [vm_compute; reflexivity |].
  intros H.
  apply (f_equal (fun v => PrimFloat.eqb (component v 0) 1)) in H.
  vm_compute in H. discriminate H.
Qed.

(* ------------------------------------------------------------------ *)
(** ** Magnitude *)

Section MagnitudeFacts.
Context {T : Type} {Sc : Scalar T}.

Lemma firstn_succ_nth (l : list T) (j : nat) (x : T) :
  nth_error l j = Some x -> firstn (Datatypes.S j) l = firstn j l ++ [x].
Proof.
  revert j; induction l as [| y l IH]; intros [| j] H; simpl in *;
    try discriminate H.
  - now injection H as ->.
  - now rewrite (IH j H).
Qed.

(** The loop of [Magnitude] adds the squares of the elements to [sum] in
    [Type]'s own arithmetic; the result is the square root of that
    [Type] value converted to [double]. *)
Lemma Vector_Magnitude_accumulates (Size : size_t) (v : Vector.t T Size) :
  Vector.wf v ->
  Vector.Magnitude v =
  Ok (PrimFloat.sqrt
        (to_double (fold_left (fun sum element => add sum (mul element element))
                              (Vector.data v) zero))).
Proof.
  intros Hwf. unfold Vector.Magnitude, exec.
  loop_invariant
    (fun j (sum : T) =>
       sum = fold_left (fun sum element => add sum (mul element element))
                       (firstn (N.to_nat j) (Vector.data v)) zero)
    total E HI.
  - reflexivity.
  - intros i total Hi ->. unfold bind, lift, get, put.
    destruct (read_Some (Vector.data v) (i := i)) as (x & Hx & Hnx);
      [unfold Vector.wf in Hwf; lia |].
    rewrite Hx. eexists. split; [reflexivity |].
    replace (N.to_nat (i + 1)) with (Datatypes.S (N.to_nat i)) by lia.
    now rewrite (firstn_succ_nth _ _ Hnx), fold_left_app.
  - subst total. simpl.
    replace (N.to_nat Size) with (length (Vector.data v))
      by (unfold Vector.wf in Hwf; lia).
    now rewrite firstn_all.
Qed.

End MagnitudeFacts.

Section MagnitudeUint32.

Local Open Scope Z_scope.

Lemma sum_of_squares_from (l : list uint32_t) (a : Z) :
  fold_left (fun acc x => acc + word.unsigned x * word.unsigned x) l a =
  a + sum_of_squares_Z l.
Proof.
  unfold sum_of_squares_Z. revert a.
  induction l as [| x l IH]; intros a; cbn [fold_left].
  - lia.
  - rewrite IH, (IH (0 + word.unsigned x * word.unsigned x)). lia.
Qed.

Lemma sum_of_squares_nonneg (l : list uint32_t) : 0 <= sum_of_squares_Z l.
Proof.
  induction l as [| x l IH]; unfold sum_of_squares_Z; cbn [fold_left].
  - lia.
  - rewrite sum_of_squares_from.
    pose proof (word.unsigned_range x). nia.
Qed.

(** Accumulating in [uint32_t] gives the integer sum modulo [2^32]. *)
Lemma uint32_accumulate_wraps (l : list uint32_t) (s : uint32_t) :
  word.unsigned
    (fold_left (fun sum element => add sum (mul element element)) l s) =
  (word.unsigned s + sum_of_squares_Z l) mod 2 ^ 32.
Proof.
  revert s. induction l as [| x l IH]; intros s.
  - unfold sum_of_squares_Z. cbn [fold_left]. rewrite Z.add_0_r.
    symmetry. apply Z.mod_small. apply (word.unsigned_range s).
  - cbn [fold_left]. rewrite IH.
    unfold sum_of_squares_Z at 2. cbn [fold_left].
    rewrite (sum_of_squares_from l).
    change (@add uint32_t Scalar_uint32) with (@word.add 32 Naive.word32).
    change (@mul uint32_t Scalar_uint32) with (@word.mul 32 Naive.word32).
    rewrite word.unsigned_add, word.unsigned_mul. unfold word.wrap.
    rewrite Z.add_mod_idemp_r by lia.
    rewrite Z.add_mod_idemp_l by lia.
    f_equal. lia.
Qed.

(** What [Magnitude] computes: it accumulates the squares in a
    [Type] variable and returns the [double] square root of that value.
    For [uint32_t] the radicand is the sum of squares modulo [2^32], so
    the result is the root of the sum of squares whenever that sum does
    not wrap; [Vector<double,3>({1, 2, 3}).Magnitude()] is [sqrt(14)]. *)
Theorem Vector_Magnitude_in_Type_arithmetic :
  (forall (T : Type) (Sc : Scalar T) (Size : size_t) (v : Vector.t T Size),
      Vector.wf v ->
      Vector.Magnitude v =
      Ok (PrimFloat.sqrt
            (to_double
               (fold_left (fun sum element => add sum (mul element element))
                          (Vector.data v) zero)))) /\
  (forall (Size : size_t) (v : Vector.t uint32_t Size),
      Vector.wf v ->
      Vector.Magnitude v =
      Ok (PrimFloat.sqrt
            (double_of_Z (sum_of_squares_Z (Vector.data v) mod 2 ^ 32))) /\
      (sum_of_squares_Z (Vector.data v) < 2 ^ 32 ->
       Vector.Magnitude v =
       Ok (PrimFloat.sqrt (double_of_Z (sum_of_squares_Z (Vector.data v)))))) /\
  (forall uninit : Vector.t float 3%N,
      Vector.wf uninit ->
      (let! v := Vector.ctor_values uninit [1; 2; 3]%float in
       Vector.Magnitude v) = Ok (PrimFloat.sqrt 14%float)).
Proof.
  split; [intros T Sc Size v; apply Vector_Magnitude_accumulates |].
  split.
  2:{ intros uninit Hwf. unfold Vector.ctor_values, exec.
      rewrite (Vector_Assign_values_copies [1; 2; 3]%float Hwf)
        by reflexivity.
      vm_compute. reflexivity. }
  intros Size v Hwf.
  assert (H : Vector.Magnitude v =
              Ok (PrimFloat.sqrt
                    (double_of_Z (sum_of_squares_Z (Vector.data v) mod 2 ^ 32)))).
  { rewrite (Vector_Magnitude_accumulates Hwf).
    unfold double_of_Z. cbn [to_double Scalar_uint32].
    rewrite uint32_accumulate_wraps.
    change (word.unsigned (@zero uint32_t Scalar_uint32)) with 0.
    reflexivity. }
  split; [exact H |].
  intros Hsmall. rewrite H. rewrite Z.mod_small; [reflexivity |].
  split; [apply sum_of_squares_nonneg | exact Hsmall].
Qed.

End MagnitudeUint32.

Lemma Vector_Magnitude_in_Type_arithmetic_witness :
  let v := Vector.mk (Size := 2) [u32 3; u32 4] in
  let uninit := Vector.mk (Size := 3) [0; 0; 0]%float in
  Vector.Magnitude v =
  Ok (PrimFloat.sqrt
        (to_double
           (fold_left (fun sum element => add sum (mul element element))
                      (Vector.data v) zero))) /\
  (Vector.Magnitude v =
   Ok (PrimFloat.sqrt
         (double_of_Z (sum_of_squares_Z (Vector.data v) mod 2 ^ 32))) /\
   (sum_of_squares_Z (Vector.data v) < 2 ^ 32 ->
    Vector.Magnitude v =
    Ok (PrimFloat.sqrt (double_of_Z (sum_of_squares_Z (Vector.data v))))))%Z /\
  (let! w := Vector.ctor_values uninit [1; 2; 3]%float in
   Vector.Magnitude w) = Ok (PrimFloat.sqrt 14%float).
Proof.
  intros v uninit. split; [| split].
  - apply (proj1 Vector_Magnitude_in_Type_arithmetic uint32_t _ 2 v).
    reflexivity.
  - apply (proj1 (proj2 Vector_Magnitude_in_Type_arithmetic) 2 v).
    reflexivity.
  - apply (proj2 (proj2 Vector_Magnitude_in_Type_arithmetic) uninit).
    reflexivity.
Defined.

(** C4: [Vector<uint32_t,1>({65536}).Magnitude()] returns 0. The
    square [65536 * 65536 = 2^32] is added to the [uint32_t] variable
    [sum], where it wraps to 0, and [sqrt] is applied to that 0; the
    square root of the sum of squares is 65536. *)
Theorem Vector_Magnitude_uint32_65536 :
  let v := Vector.mk (Size := 1) [u32 65536] in
  Vector.Magnitude v = Ok 0%float /\
  sum_of_squares_Z (Vector.data v) = (2 ^ 32)%Z /\
  PrimFloat.sqrt (double_of_Z (sum_of_squares_Z (Vector.data v))) =
    65536%float /\
  PrimFloat.eqb 0 65536 = false.
Proof.
  intros v. repeat split; vm_compute; reflexivity.
Qed.

(* ------------------------------------------------------------------ *)
(** * Further properties *)

Unset Implicit Arguments.

(** ** Element-wise loops *)

Section ElementwiseLoops.
Context {T S : Type} (dat : S -> list T).

(** A counted loop over the whole array whose iteration [i] replaces
    element [i] by [h i] of it replaces every element so. *)
Lemma For_elementwise (n : size_t) (body : size_t -> M S unit)
      (h : N -> T -> T) (s0 : S) :
  N.of_nat (length (dat s0)) = n ->
  (forall i s e, i < n -> N.of_nat (length (dat s)) = n ->
     nth_error (dat s) (N.to_nat i) = Some e ->
     exists s', body i s = (Ok tt, s') /\
                dat s' = update (dat s) (N.to_nat i) (h i e)) ->
  exists s', For n body s0 = (Ok tt, s') /\
             N.of_nat (length (dat s')) = n /\
             forall i e, i < n ->
               nth_error (dat s0) (N.to_nat i) = Some e ->
               nth_error (dat s') (N.to_nat i) = Some (h i e).
Proof.
  intros Hlen Hbody.
  pose (upto := fun (j : N) (s : S) =>
          N.of_nat (length (dat s)) = n /\
          (forall i e, i < j -> nth_error (dat s0) (N.to_nat i) = Some e ->
                       nth_error (dat s) (N.to_nat i) = Some (h i e)) /\
          (forall i, j <= i ->
                     nth_error (dat s) (N.to_nat i) =
                     nth_error (dat s0) (N.to_nat i))).
  destruct (@For_invariant _ n body upto s0) as (s' & E & HI).
  - unfold upto. split; [exact Hlen | split]; [intros i e H; lia | reflexivity].
  - intros j s Hj (Hl & Hdone & Hrest).
    destruct (nth_error (dat s) (N.to_nat j)) as [e |] eqn:He.
    2:{ apply nth_error_None in He. lia. }
    destruct (Hbody j s e Hj Hl He) as (s2 & E2 & Hd).
    exists s2. split; [exact E2 |]. unfold upto. rewrite Hd.
    split; [now rewrite length_update | split].
    + intros i e' Hi Hi0.
      destruct (N.eq_dec i j) as [-> | Hne].
      * rewrite nth_error_update_same by lia.
        rewrite Hrest in He by lia. congruence.
      * rewrite nth_error_update_other by lia. apply Hdone; [lia | exact Hi0].
    + intros i Hi. rewrite nth_error_update_other by lia. apply Hrest. lia.
  - exists s'. destruct HI as (Hl & Hdone & _).
    split; [exact E | split; [exact Hl | exact Hdone]].
Qed.
End ElementwiseLoops.

Section ListFacts.
Context {T : Type}.

Lemma list_eq_map (g : T -> T) (l l' : list T) :
  length l' = length l ->
  (forall i e, nth_error l i = Some e -> nth_error l' i = Some (g e)) ->
  l' = map g l.
Proof.
  intros Hlen H. apply nth_error_ext. intros i.
  rewrite nth_error_map.
  destruct (nth_error l i) as [e |] eqn:E; simpl.
  - now apply H.
  - apply nth_error_None. apply nth_error_None in E. lia.
Qed.

Lemma nth_error_combine (a b : list T) (i : nat) (x y : T) :
  nth_error a i = Some x -> nth_error b i = Some y ->
  nth_error (combine a b) i = Some (x, y).
Proof.
  revert b i; induction a as [| a0 a IH]; intros [| b0 b] [| i] Ha Hb;
    simpl in *; try discriminate; try congruence.
  now apply IH.
Qed.

Lemma list_eq_zip_with {Sc : Scalar T} (g : T -> T -> T) (a b l' : list T) :
  length a = length b -> length l' = length a ->
  (forall i x, nth_error a i = Some x ->
               nth_error l' i = Some (g x (nth i b zero))) ->
  l' = zip_with g a b.
Proof.
  intros Hab Hlen H. apply nth_error_ext. intros i. unfold zip_with.
  rewrite nth_error_map.
  destruct (nth_error a i) as [x |] eqn:Ea.
  - destruct (nth_error b i) as [y |] eqn:Eb.
    + rewrite (@nth_error_combine a b i x y Ea Eb). simpl.
      rewrite (H i x Ea). now rewrite (nth_error_nth _ _ zero Eb).
    + apply nth_error_None in Eb.
      assert (nth_error a i <> None) as Hs by congruence.
      apply nth_error_Some in Hs. lia.
  - assert (length (combine a b) = length a) as Hc
        by (rewrite length_combine; lia).
    apply nth_error_None in Ea.
    rewrite (proj2 (nth_error_None l' i)) by lia.
    rewrite (proj2 (nth_error_None (combine a b) i)) by lia. reflexivity.
Qed.

Lemma zip_with_length {Sc : Scalar T} (g : T -> T -> T) (a b : list T) :
  length a = length b -> length (zip_with g a b) = length a.
Proof.
  intros H. unfold zip_with. rewrite length_map, length_combine. lia.
Qed.

Lemma map_length_N (g : T -> T) (l : list T) (n : N) :
  N.of_nat (length l) = n -> N.of_nat (length (map g l)) = n.
Proof. now rewrite length_map. Qed.

End ListFacts.

(* ------------------------------------------------------------------ *)
(** ** Element-wise operations on vectors *)

Section VectorElementwise.
Context {T : Type} {Sc : Scalar T}.

Lemma Vector_eta (Size : size_t) (v : Vector.t T Size) :
  Vector.mk (Vector.data v) = v.
Proof. now destruct v. Qed.

Lemma Vector_index_set_step (Size : size_t) (s : Vector.t T Size)
      (i : size_t) (x : T) :
  N.of_nat (length (Vector.data s)) = Size -> i < Size ->
  Vector.index_set i x s =
  (Ok tt, Vector.mk (update (Vector.data s) (N.to_nat i) x)).
Proof.
  intros Hl Hi. unfold Vector.index_set, bind, get, lift, put.
  now rewrite write_in_range by lia.
Qed.

Lemma Vector_update_at_step (Size : size_t) (s : Vector.t T Size)
      (i : size_t) (f : T -> T) (e : T) :
  N.of_nat (length (Vector.data s)) = Size -> i < Size ->
  nth_error (Vector.data s) (N.to_nat i) = Some e ->
  Vector.update_at i f s =
  (Ok tt, Vector.mk (update (Vector.data s) (N.to_nat i) (f e))).
Proof.
  intros Hl Hi He. unfold Vector.update_at, bind, get, lift, put, read.
  rewrite He. now rewrite write_in_range by lia.
Qed.

(** The loop of [Assign(value)]. *)
Lemma Vector_fill_loop (Size : size_t) (v : Vector.t T Size) (value : T) :
  Vector.wf v ->
  For Size (fun i => Vector.index_set i value) v =
  (Ok tt, Vector.mk (repeat value (N.to_nat Size))).
Proof.
  intros Hwf.
  destruct (@For_elementwise T _ Vector.data Size
              (fun i => Vector.index_set i value) (fun _ _ => value) v Hwf)
    as (s' & E & Hl & Hs').
  { intros i s e Hi Hl _. eexists.
    split; [now apply Vector_index_set_step | reflexivity]. }
  rewrite E. f_equal. rewrite <- (Vector_eta _ s'). f_equal.
  replace (N.to_nat Size) with (length (Vector.data v))
    by (unfold Vector.wf in Hwf; lia).
  rewrite <- map_const. apply list_eq_map.
  - unfold Vector.wf in Hwf. lia.
  - intros i e He.
    assert (Hi : (i < length (Vector.data v))%nat)
      by (apply nth_error_Some; congruence).
    specialize (Hs' (N.of_nat i) e). rewrite Nat2N.id in Hs'.
    apply Hs'; [unfold Vector.wf in Hwf; lia | exact He].
Qed.

(** The loop of the scalar operations: [data[i] op= scalar]. *)
Lemma Vector_map_loop (Size : size_t) (v : Vector.t T Size) (f : T -> T) :
  Vector.wf v ->
  For Size (fun i => Vector.update_at i f) v =
  (Ok tt, Vector.mk (map f (Vector.data v))).
Proof.
  intros Hwf.
  destruct (@For_elementwise T _ Vector.data Size
              (fun i => Vector.update_at i f) (fun _ e => f e) v Hwf)
    as (s' & E & Hl & Hs').
  { intros i s e Hi Hl He. eexists.
    split; [exact (Vector_update_at_step Size s i f e Hl Hi He) | reflexivity]. }
  rewrite E. f_equal. rewrite <- (Vector_eta _ s'). f_equal.
  apply list_eq_map.
  - unfold Vector.wf in Hwf. lia.
  - intros i e He.
    assert (Hi : (i < length (Vector.data v))%nat)
      by (apply nth_error_Some; congruence).
    specialize (Hs' (N.of_nat i) e). rewrite Nat2N.id in Hs'.
    apply Hs'; [unfold Vector.wf in Hwf; lia | exact He].
Qed.

(** The loop of the vector operations: [data[i] op= vec.data[i]]. *)
Lemma Vector_zip_loop (Size : size_t) (v vec : Vector.t T Size)
      (g : T -> T -> T) :
  Vector.wf v -> Vector.wf vec ->
  For Size (fun i =>
              b <- lift (read (Vector.data vec) i) ;;
              Vector.update_at i (fun e => g e b))%M v =
  (Ok tt, Vector.mk (zip_with g (Vector.data v) (Vector.data vec))).
Proof.
  intros Hwf Hvec.
  destruct (@For_elementwise T _ Vector.data Size
              (fun i => b <- lift (read (Vector.data vec) i) ;;
                        Vector.update_at i (fun e => g e b))%M
              (fun i e => g e (nth (N.to_nat i) (Vector.data vec) zero))
              v Hwf)
    as (s' & E & Hl & Hs').
  { intros i s e Hi Hl He.
    destruct (read_Some (Vector.data vec) (i := i)) as (b & Hb & Hnb);
      [unfold Vector.wf in Hvec; lia |].
    eexists. split.
    - unfold bind at 1. unfold lift. rewrite Hb.
      exact (Vector_update_at_step Size s i (fun e => g e b) e Hl Hi He).
    - now rewrite (nth_error_nth _ _ zero Hnb). }
  rewrite E. f_equal. rewrite <- (Vector_eta _ s'). f_equal.
  unfold Vector.wf in Hwf, Hvec.
  apply list_eq_zip_with; try lia.
  intros i e He.
  assert (Hi : (i < length (Vector.data v))%nat)
    by (apply nth_error_Some; congruence).
  specialize (Hs' (N.of_nat i) e). rewrite Nat2N.id in Hs'.
  apply Hs'; [lia | exact He].
Qed.

(** X1: [Assign(value)] returns normally and fills the vector: afterwards
    the array is [Size] copies of [value] and every checked read below
    [Size] returns [value]; [Assign(vec)] makes the vector equal to
    [vec]. *)
Theorem Vector_Assign_value_fills (Size : size_t) (v vec : Vector.t T Size)
        (value : T) :
  Vector.wf v -> Vector.wf vec ->
  (exists v', Vector.Assign_value value v = (Ok tt, v') /\
              Vector.wf v' /\
              Vector.data v' = repeat value (N.to_nat Size) /\
              forall i, i < Size -> Vector.At v' i = Ok value) /\
  Vector.Assign_vec vec v = (Ok tt, vec).
Proof.
  intros Hwf Hvec. split.
  - exists (Vector.mk (repeat value (N.to_nat Size))).
    assert (Hwf' : Vector.wf (Size := Size)
                     (Vector.mk (repeat value (N.to_nat Size))))
      by (unfold Vector.wf; simpl; rewrite repeat_length; lia).
    split; [now apply Vector_fill_loop | split; [exact Hwf' | split]];
      [reflexivity |].
    intros i Hi.
    destruct (Vector_At_in_range Hwf' Hi) as (x & Hx & Hnx).
    simpl in Hnx. rewrite nth_error_repeat in Hnx by lia. congruence.
  - unfold Vector.Assign_vec, bind, get, lift, put.
    rewrite (memcpy_whole (Vector.data v) (Vector.data vec) Hvec Hwf).
    now rewrite Vector_eta.
Qed.

(** X2: [Assign(values)] raises the size-mismatch error exactly when the
    source has another length than [Size]; with the right length it
    returns normally and every checked read [At(i)], [i < Size], returns
    the element [i] of the source. *)
Theorem Vector_Assign_values_round_trip (Size : size_t) (v : Vector.t T Size)
        (values : list T) :
  Vector.wf v ->
  (N.of_nat (length values) <> Size <->
   raises (fst (Vector.Assign_values values v)) SizeMismatch) /\
  (N.of_nat (length values) = Size ->
   exists v', Vector.Assign_values values v = (Ok tt, v') /\
              forall i, i < Size ->
                exists x, Vector.At v' i = Ok x /\
                          nth_error values (N.to_nat i) = Some x).
Proof.
  intros Hwf. split; [split |].
  - intros Hne. rewrite Vector_Assign_values_throws by exact Hne. simpl.
    eexists. split; reflexivity.
  - intros (e & He & _) Heq.
    rewrite Vector_Assign_values_copies in He by assumption.
    discriminate He.
  - intros Heq. now apply Vector_Assign_values_At.
Qed.

(** X3: a write through the checked [At(i)] with [i < Size] changes
    element [i] and no other; with [i >= Size] the write and the read
    raise the index error and the vector is left as it was. *)
Theorem Vector_At_set_then_At (Size : size_t) (v : Vector.t T Size)
        (i : size_t) (x : T) :
  Vector.wf v ->
  (i < Size ->
   exists v', Vector.At_set i x v = (Ok tt, v') /\ Vector.wf v' /\
              Vector.At v' i = Ok x /\
              forall j, j <> i -> Vector.At v' j = Vector.At v j) /\
  (Size <= i ->
   raises (fst (Vector.At_set i x v)) IndexOutOfRange /\
   snd (Vector.At_set i x v) = v /\
   raises (Vector.At v i) IndexOutOfRange).
Proof.
  intros Hwf. split.
  - intros Hi. unfold Vector.At_set.
    destruct (N.leb_spec Size i); [lia |].
    rewrite (Vector_index_set_step Size v i x Hwf Hi).
    eexists. split; [reflexivity |].
    assert (Hwf' : Vector.wf (Size := Size)
                     (Vector.mk (update (Vector.data v) (N.to_nat i) x)))
      by (unfold Vector.wf in *; simpl; now rewrite length_update).
    split; [exact Hwf' | split].
    + destruct (Vector_At_in_range Hwf' Hi) as (y & Hy & Hny).
      simpl in Hny. rewrite nth_error_update_same in Hny
        by (unfold Vector.wf in Hwf; lia).
      congruence.
    + intros j Hj. unfold Vector.At, read. simpl.
      now rewrite nth_error_update_other by lia.
  - intros Hi. unfold Vector.At_set, Vector.At.
    destruct (N.leb_spec Size i); [| lia]. simpl.
    repeat split; eexists; split; reflexivity.
Qed.

End VectorElementwise.

Lemma Vector_Assign_value_fills_witness :
  let v := Vector.mk (Size := 3) [u32 1; u32 2; u32 3] in
  let vec := Vector.mk (Size := 3) [u32 4; u32 5; u32 6] in
  (exists v', Vector.Assign_value (u32 7) v = (Ok tt, v') /\
              Vector.wf v' /\
              Vector.data v' = repeat (u32 7) (N.to_nat 3) /\
              forall i, i < 3 -> Vector.At v' i = Ok (u32 7)) /\
  Vector.Assign_vec vec v = (Ok tt, vec).
Proof.
  intros v vec.
  apply (Vector_Assign_value_fills (T := uint32_t)); reflexivity.
Defined.

Lemma Vector_Assign_values_round_trip_witness :
  let v := Vector.mk (Size := 2) [u32 1; u32 2] in
  let values := [u32 8; u32 9] in
  (N.of_nat (length values) <> 2 <->
   raises (fst (Vector.Assign_values values v)) SizeMismatch) /\
  (N.of_nat (length values) = 2 ->
   exists v', Vector.Assign_values values v = (Ok tt, v') /\
              forall i, i < 2 ->
                exists x, Vector.At v' i = Ok x /\
                          nth_error values (N.to_nat i) = Some x).
Proof.
  intros v values.
  apply (Vector_Assign_values_round_trip (T := uint32_t)). reflexivity.
Defined.

Lemma Vector_At_set_then_At_witness :
  let v := Vector.mk (Size := 2) [u32 1; u32 2] in
  (1 < 2 ->
   exists v', Vector.At_set 1 (u32 9) v = (Ok tt, v') /\ Vector.wf v' /\
              Vector.At v' 1 = Ok (u32 9) /\
              forall j, j <> 1 -> Vector.At v' j = Vector.At v j) /\
  (2 <= 1 ->
   raises (fst (Vector.At_set 1 (u32 9) v)) IndexOutOfRange /\
   snd (Vector.At_set 1 (u32 9) v) = v /\
   raises (Vector.At v 1) IndexOutOfRange).
Proof.
  intros v.
  apply (@Vector_At_set_then_At uint32_t 2 v 1 (u32 9)).
  reflexivity.
Defined.

Section VectorArithmetic.
Context {T : Type} {Sc : Scalar T}.

(** The scalar operations of a vector and their in-place forms, element by element. *)
Lemma Vector_scalar_loops (Size : size_t) (v : Vector.t T Size)
        (s : T) :
  Vector.wf v ->
  Vector.Add_scalar v s =
    Ok (Vector.mk (map (fun e => add e s) (Vector.data v))) /\
  Vector.Subtract_scalar v s =
    Ok (Vector.mk (map (fun e => sub e s) (Vector.data v))) /\
  Vector.Scale v s =
    Ok (Vector.mk (map (fun e => mul e s) (Vector.data v))) /\
  Vector.AddInPlace_scalar s v =
    (Ok tt, Vector.mk (map (fun e => add e s) (Vector.data v))) /\
  Vector.SubtractInPlace_scalar s v =
    (Ok tt, Vector.mk (map (fun e => sub e s) (Vector.data v))) /\
  Vector.ScaleInPlace s v =
    (Ok tt, Vector.mk (map (fun e => mul e s) (Vector.data v))).
Proof.
  intros Hwf.
  unfold Vector.Add_scalar, Vector.Subtract_scalar, Vector.Scale,
    Vector.AddInPlace_scalar, Vector.SubtractInPlace_scalar,
    Vector.ScaleInPlace, exec.
  rewrite !Vector_map_loop by exact Hwf. repeat split.
Qed.

(** X4: the scalar operations [Add], [Subtract] and [Scale] return
    normally with the vector whose every element is the element of
    [this] combined with the scalar, [this] being the left operand, and
    the in-place forms leave exactly that vector in [this]. *)
Theorem Vector_scalar_operations (Size : size_t) (v : Vector.t T Size)
        (s : T) :
  Vector.wf v ->
  Vector.Add_scalar v s =
    Ok (Vector.mk (map (fun e => add e s) (Vector.data v))) /\
  Vector.Subtract_scalar v s =
    Ok (Vector.mk (map (fun e => sub e s) (Vector.data v))) /\
  Vector.Scale v s =
    Ok (Vector.mk (map (fun e => mul e s) (Vector.data v))) /\
  Vector.AddInPlace_scalar s v =
    (Ok tt, Vector.mk (map (fun e => add e s) (Vector.data v))) /\
  Vector.SubtractInPlace_scalar s v =
    (Ok tt, Vector.mk (map (fun e => sub e s) (Vector.data v))) /\
  Vector.ScaleInPlace s v =
    (Ok tt, Vector.mk (map (fun e => mul e s) (Vector.data v))).
Proof.
  intros Hwf.
  unfold Vector.Add_scalar, Vector.Subtract_scalar, Vector.Scale,
    Vector.AddInPlace_scalar, Vector.SubtractInPlace_scalar,
    Vector.ScaleInPlace, exec.
  rewrite !Vector_map_loop by exact Hwf. repeat split.
Qed.

(** The vector operations and their in-place forms, element by element. *)
Lemma Vector_vector_loops (Size : size_t) (v vec : Vector.t T Size) :
  Vector.wf v -> Vector.wf vec ->
  Vector.Add_vec v vec =
    Ok (Vector.mk (zip_with add (Vector.data v) (Vector.data vec))) /\
  Vector.Subtract_vec v vec =
    Ok (Vector.mk (zip_with sub (Vector.data v) (Vector.data vec))) /\
  Vector.Hadamard v vec =
    Ok (Vector.mk (zip_with mul (Vector.data v) (Vector.data vec))) /\
  Vector.AddInPlace_vec vec v =
    (Ok tt, Vector.mk (zip_with add (Vector.data v) (Vector.data vec))) /\
  Vector.SubtractInPlace_vec vec v =
    (Ok tt, Vector.mk (zip_with sub (Vector.data v) (Vector.data vec))) /\
  Vector.HadamardInPlace vec v =
    (Ok tt, Vector.mk (zip_with mul (Vector.data v) (Vector.data vec))).
Proof.
  intros Hwf Hvec.
  unfold Vector.Add_vec, Vector.Subtract_vec, Vector.Hadamard,
    Vector.AddInPlace_vec, Vector.SubtractInPlace_vec,
    Vector.HadamardInPlace, exec.
  rewrite (Vector_zip_loop Size v vec add Hwf Hvec).
  rewrite (Vector_zip_loop Size v vec sub Hwf Hvec).
  rewrite (Vector_zip_loop Size v vec mul Hwf Hvec).
  repeat split.
Qed.

(** X5: the vector operations [Add], [Subtract] and [Hadamard] return
    normally with the element-wise sum, difference and product of
    [this] and [vec], and the in-place forms leave exactly that vector
    in [this]. *)
Theorem Vector_vector_operations (Size : size_t) (v vec : Vector.t T Size) :
  Vector.wf v -> Vector.wf vec ->
  Vector.Add_vec v vec =
    Ok (Vector.mk (zip_with add (Vector.data v) (Vector.data vec))) /\
  Vector.Subtract_vec v vec =
    Ok (Vector.mk (zip_with sub (Vector.data v) (Vector.data vec))) /\
  Vector.Hadamard v vec =
    Ok (Vector.mk (zip_with mul (Vector.data v) (Vector.data vec))) /\
  Vector.AddInPlace_vec vec v =
    (Ok tt, Vector.mk (zip_with add (Vector.data v) (Vector.data vec))) /\
  Vector.SubtractInPlace_vec vec v =
    (Ok tt, Vector.mk (zip_with sub (Vector.data v) (Vector.data vec))) /\
  Vector.HadamardInPlace vec v =
    (Ok tt, Vector.mk (zip_with mul (Vector.data v) (Vector.data vec))).
Proof.
  intros Hwf Hvec.
  unfold Vector.Add_vec, Vector.Subtract_vec, Vector.Hadamard,
    Vector.AddInPlace_vec, Vector.SubtractInPlace_vec,
    Vector.HadamardInPlace, exec.
  rewrite (Vector_zip_loop Size v vec add Hwf Hvec).
  rewrite (Vector_zip_loop Size v vec sub Hwf Hvec).
  rewrite (Vector_zip_loop Size v vec mul Hwf Hvec).
  repeat split.
Qed.

Lemma Vector_wf_map (Size : size_t) (v : Vector.t T Size) (f : T -> T) :
  Vector.wf v -> Vector.wf (Size := Size) (Vector.mk (map f (Vector.data v))).
Proof. unfold Vector.wf. simpl. now rewrite length_map. Qed.

Lemma Vector_wf_zip_with (Size : size_t) (v vec : Vector.t T Size)
      (g : T -> T -> T) :
  Vector.wf v -> Vector.wf vec ->
  Vector.wf (Size := Size)
            (Vector.mk (zip_with g (Vector.data v) (Vector.data vec))).
Proof.
  unfold Vector.wf. simpl. intros Hv Hvec.
  rewrite zip_with_length; lia.
Qed.

Lemma zip_with_cancel (g h : T -> T -> T) (a b : list T) :
  length a = length b ->
  (forall x y, h (g x y) y = x) ->
  zip_with h (zip_with g a b) b = a.
Proof.
  intros Hlen Hgh. unfold zip_with. revert b Hlen.
  induction a as [| x a IH]; intros [| y b] Hlen; simpl in *;
    try discriminate; [reflexivity |].
  rewrite Hgh. f_equal. apply IH. lia.
Qed.

Lemma zip_with_comm (g : T -> T -> T) (a b : list T) :
  (forall x y, g x y = g y x) -> zip_with g a b = zip_with g b a.
Proof.
  intros Hg. unfold zip_with. revert b.
  induction a as [| x a IH]; intros [| y b]; simpl; try reflexivity.
  rewrite Hg. f_equal. apply IH.
Qed.

Lemma nth_zip_with (g : T -> T -> T) (a b : list T) (i : nat) :
  length a = length b -> (i < length a)%nat ->
  nth i (zip_with g a b) zero = g (nth i a zero) (nth i b zero).
Proof.
  unfold zip_with. revert b i.
  induction a as [| x a IH]; intros [| y b] [| i] Hlen Hi; simpl in *;
    try discriminate; try lia; [reflexivity |].
  apply IH; lia.
Qed.

End VectorArithmetic.

Lemma Vector_scalar_operations_witness :
  let v := Vector.mk (Size := 2) [u32 1; u32 2] in
  Vector.Add_scalar v (u32 5) =
    Ok (Vector.mk (map (fun e => add e (u32 5)) (Vector.data v))) /\
  Vector.Subtract_scalar v (u32 5) =
    Ok (Vector.mk (map (fun e => sub e (u32 5)) (Vector.data v))) /\
  Vector.Scale v (u32 5) =
    Ok (Vector.mk (map (fun e => mul e (u32 5)) (Vector.data v))) /\
  Vector.AddInPlace_scalar (u32 5) v =
    (Ok tt, Vector.mk (map (fun e => add e (u32 5)) (Vector.data v))) /\
  Vector.SubtractInPlace_scalar (u32 5) v =
    (Ok tt, Vector.mk (map (fun e => sub e (u32 5)) (Vector.data v))) /\
  Vector.ScaleInPlace (u32 5) v =
    (Ok tt, Vector.mk (map (fun e => mul e (u32 5)) (Vector.data v))).
Proof.
  intros v.
  apply (@Vector_scalar_operations uint32_t _ 2 v (u32 5)). reflexivity.
Defined.

Lemma Vector_vector_operations_witness :
  let v := Vector.mk (Size := 2) [u32 1; u32 2] in
  let vec := Vector.mk (Size := 2) [u32 3; u32 4] in
  Vector.Add_vec v vec =
    Ok (Vector.mk (zip_with add (Vector.data v) (Vector.data vec))) /\
  Vector.Subtract_vec v vec =
    Ok (Vector.mk (zip_with sub (Vector.data v) (Vector.data vec))) /\
  Vector.Hadamard v vec =
    Ok (Vector.mk (zip_with mul (Vector.data v) (Vector.data vec))) /\
  Vector.AddInPlace_vec vec v =
    (Ok tt, Vector.mk (zip_with add (Vector.data v) (Vector.data vec))) /\
  Vector.SubtractInPlace_vec vec v =
    (Ok tt, Vector.mk (zip_with sub (Vector.data v) (Vector.data vec))) /\
  Vector.HadamardInPlace vec v =
    (Ok tt, Vector.mk (zip_with mul (Vector.data v) (Vector.data vec))).
Proof.
  intros v vec.
  apply (@Vector_vector_operations uint32_t _ 2 v vec); reflexivity.
Defined.

Section VectorRing.
Context {T : Type} {Sc : Scalar T}.
Hypothesis Tring : ScalarRing T.

Add Ring T_ring_vector : (Tring : ring_theory zero one add mul sub opp (@eq T)).

(** X6: over a ring, subtracting what was added gives the vector back:
    [v.Add(s).Subtract(s) == v] for a scalar [s] and
    [v.Add(vec).Subtract(vec) == v] for a vector [vec]. *)
Theorem Vector_Add_then_Subtract (Size : size_t) (v vec : Vector.t T Size)
        (s : T) :
  Vector.wf v -> Vector.wf vec ->
  (exists w, Vector.Add_scalar v s = Ok w /\
             Vector.Subtract_scalar w s = Ok v) /\
  (exists w, Vector.Add_vec v vec = Ok w /\
             Vector.Subtract_vec w vec = Ok v).
Proof.
  intros Hwf Hvec. split.
  - destruct (Vector_scalar_loops Size v s Hwf) as (EA & _).
    eexists. split; [exact EA |].
    destruct (Vector_scalar_loops Size _ s
                (Vector_wf_map Size v (fun e => add e s) Hwf))
      as (_ & ES & _).
    rewrite ES. simpl. rewrite map_map. f_equal.
    rewrite <- (Vector_eta _ v) at 2. f_equal.
    rewrite <- (map_id (Vector.data v)) at 2.
    apply map_ext. intros e. ring.
  - destruct (Vector_vector_loops Size v vec Hwf Hvec) as (EA & _).
    eexists. split; [exact EA |].
    destruct (Vector_vector_loops Size _ vec
                (Vector_wf_zip_with Size v vec add Hwf Hvec) Hvec)
      as (_ & ES & _).
    rewrite ES. simpl. f_equal.
    rewrite <- (Vector_eta _ v) at 2. f_equal.
    apply zip_with_cancel.
    + unfold Vector.wf in *. lia.
    + intros x y. ring.
Qed.

(** X7: over a ring, scaling twice is scaling by the product,
    [v.Scale(s).Scale(t) == v.Scale(s * t)], scaling by 1 gives [v], and
    [Add] and [Hadamard] of two vectors do not depend on the order of
    the operands. *)
Theorem Vector_Scale_composes (Size : size_t) (v vec : Vector.t T Size)
        (s t : T) :
  Vector.wf v -> Vector.wf vec ->
  (exists w, Vector.Scale v s = Ok w /\
             Vector.Scale w t = Vector.Scale v (mul s t)) /\
  Vector.Scale v one = Ok v /\
  Vector.Add_vec v vec = Vector.Add_vec vec v /\
  Vector.Hadamard v vec = Vector.Hadamard vec v.
Proof.
  intros Hwf Hvec.
  destruct (Vector_scalar_loops Size v s Hwf) as (_ & _ & ES & _).
  destruct (Vector_scalar_loops Size v (mul s t) Hwf)
    as (_ & _ & EST & _).
  destruct (Vector_scalar_loops Size v one Hwf) as (_ & _ & E1 & _).
  destruct (Vector_scalar_loops Size _ t
              (Vector_wf_map Size v (fun e => mul e s) Hwf))
    as (_ & _ & ET & _).
  destruct (Vector_vector_loops Size v vec Hwf Hvec)
    as (EA & _ & EH & _).
  destruct (Vector_vector_loops Size vec v Hvec Hwf)
    as (EA' & _ & EH' & _).
  split; [| split; [| split]].
  - eexists. split; [exact ES |]. rewrite ET, EST. simpl.
    rewrite map_map. do 2 f_equal. apply map_ext. intros e. ring.
  - rewrite E1. f_equal. rewrite <- (Vector_eta _ v) at 2. f_equal.
    rewrite <- (map_id (Vector.data v)) at 2.
    apply map_ext. intros e. ring.
  - rewrite EA, EA'. do 2 f_equal. apply zip_with_comm. intros x y. ring.
  - rewrite EH, EH'. do 2 f_equal. apply zip_with_comm. intros x y. ring.
Qed.

End VectorRing.

Lemma Vector_Add_then_Subtract_witness :
  let v := Vector.mk (Size := 2) [u32 1; u32 2] in
  let vec := Vector.mk (Size := 2) [u32 3; u32 4] in
  (exists w, Vector.Add_scalar v (u32 5) = Ok w /\
             Vector.Subtract_scalar w (u32 5) = Ok v) /\
  (exists w, Vector.Add_vec v vec = Ok w /\
             Vector.Subtract_vec w vec = Ok v).
Proof.
  intros v vec.
  apply (@Vector_Add_then_Subtract uint32_t _ ScalarRing_uint32 2 v vec (u32 5));
    reflexivity.
Defined.

Lemma Vector_Scale_composes_witness :
  let v := Vector.mk (Size := 2) [u32 1; u32 2] in
  let vec := Vector.mk (Size := 2) [u32 3; u32 4] in
  (exists w, Vector.Scale v (u32 5) = Ok w /\
             Vector.Scale w (u32 6) = Vector.Scale v (mul (u32 5) (u32 6))) /\
  Vector.Scale v one = Ok v /\
  Vector.Add_vec v vec = Vector.Add_vec vec v /\
  Vector.Hadamard v vec = Vector.Hadamard vec v.
Proof.
  intros v vec.
  apply (@Vector_Scale_composes uint32_t _ ScalarRing_uint32 2 v vec
           (u32 5) (u32 6)); reflexivity.
Defined.

(* ------------------------------------------------------------------ *)
(** ** Sums and dot products *)

Section Sums.
Context {T : Type} {Sc : Scalar T}.

Lemma sum_upto_ext (n : N) (f g : N -> T) :
  (forall m, m < n -> f m = g m) -> sum_upto n f = sum_upto n g.
Proof.
  induction n as [| n IH] using N.peano_ind; intros H.
  - reflexivity.
  - rewrite <- N.add_1_r, !sum_upto_succ, IH, H; try reflexivity; try lia.
    intros m Hm. apply H. lia.
Qed.

(** The sum over the indices of a list is the left fold over it. *)
Lemma sum_upto_fold_left (h : T -> T) (l : list T) :
  sum_upto (N.of_nat (length l)) (fun i => h (nth (N.to_nat i) l zero)) =
  fold_left (fun acc e => add acc (h e)) l zero.
Proof.
  induction l as [| x l IH] using rev_ind.
  - reflexivity.
  - rewrite length_app, fold_left_app. simpl.
    replace (N.of_nat (length l + 1)) with (N.of_nat (length l) + 1) by lia.
    rewrite sum_upto_succ, Nat2N.id, nth_middle. f_equal.
    rewrite <- IH. apply sum_upto_ext. intros m Hm.
    now rewrite app_nth1 by lia.
Qed.

(** The loop of [Sum]. *)
Lemma sum_loop (n : size_t) (a : size_t -> outcome T) (f : N -> T) :
  (forall m, m < n -> a m = Ok (f m)) ->
  exec (For n (fun i =>
          e <- lift (a i) ;;
          sum <- get ;;
          put (add sum e))%M) zero =
  Ok (sum_upto n f).
Proof.
  intros Ha. unfold exec.
  loop_invariant (fun j (total : T) => total = sum_upto j f) total E HI.
  - reflexivity.
  - intros m total Hm ->. unfold bind, lift, get, put.
    rewrite (Ha m Hm). eexists. split; [reflexivity |].
    now rewrite sum_upto_succ.
  - now subst total.
Qed.

Lemma Vector_Sum_spec (Size : size_t) (v : Vector.t T Size) :
  Vector.wf v -> Vector.Sum v = Ok (sum_upto Size (component v)).
Proof.
  intros Hwf. unfold Vector.Sum.
  apply (sum_loop Size (fun i => read (Vector.data v) i) (component v)).
  intros m Hm. now apply Vector_read_component.
Qed.

Lemma Vector_Dot_spec (Size : size_t) (a b : Vector.t T Size) :
  Vector.wf a -> Vector.wf b ->
  Vector.Dot a b =
  Ok (sum_upto Size (fun i => mul (component a i) (component b i))).
Proof.
  intros Ha Hb. unfold Vector.Dot.
  apply (@dot_loop T Sc Size (fun i => read (Vector.data a) i)
                   (fun i => read (Vector.data b) i)
                   (component a) (component b));
    intros m Hm; now apply Vector_read_component.
Qed.

(** X8: [Magnitude()] is the [double] square root of the [Dot] of the
    vector with itself, converted to [double]: both accumulate the same products in the same
    order, in [Type]'s arithmetic. *)
Theorem Vector_Magnitude_is_root_of_Dot (Size : size_t) (v : Vector.t T Size) :
  Vector.wf v ->
  exists d, Vector.Dot v v = Ok d /\
            Vector.Magnitude v = Ok (PrimFloat.sqrt (to_double d)).
Proof.
  intros Hwf. eexists. split; [now apply Vector_Dot_spec |].
  rewrite (Vector_Magnitude_accumulates Hwf). do 3 f_equal.
  rewrite <- (sum_upto_fold_left (fun e => mul e e)).
  unfold Vector.wf in Hwf. rewrite Hwf. reflexivity.
Qed.

End Sums.

Lemma Vector_Magnitude_is_root_of_Dot_witness :
  let v := Vector.mk (Size := 2) [3; 4]%float in
  exists d, Vector.Dot v v = Ok d /\
            Vector.Magnitude v = Ok (PrimFloat.sqrt (to_double d)).
Proof.
  intros v.
  apply (@Vector_Magnitude_is_root_of_Dot float _ 2 v). reflexivity.
Defined.

Section DotRing.
Context {T : Type} {Sc : Scalar T}.
Hypothesis Tring : ScalarRing T.

Add Ring T_ring_dot : (Tring : ring_theory zero one add mul sub opp (@eq T)).

Lemma sum_upto_add (n : N) (f g : N -> T) :
  sum_upto n (fun m => add (f m) (g m)) = add (sum_upto n f) (sum_upto n g).
Proof.
  induction n as [| n IH] using N.peano_ind.
  - unfold sum_upto. simpl. ring.
  - rewrite <- N.add_1_r, !sum_upto_succ, IH. ring.
Qed.

Lemma sum_upto_mul_l (n : N) (c : T) (f : N -> T) :
  sum_upto n (fun m => mul c (f m)) = mul c (sum_upto n f).
Proof.
  induction n as [| n IH] using N.peano_ind.
  - unfold sum_upto. simpl. ring.
  - rewrite <- N.add_1_r, !sum_upto_succ, IH. ring.
Qed.

Lemma sum_upto_mul_r (n : N) (c : T) (f : N -> T) :
  sum_upto n (fun m => mul (f m) c) = mul (sum_upto n f) c.
Proof.
  induction n as [| n IH] using N.peano_ind.
  - unfold sum_upto. simpl. ring.
  - rewrite <- N.add_1_r, !sum_upto_succ, IH. ring.
Qed.

(** X9: over a ring, [a.Dot(b)] returns the sum of the products of the
    elements and does not depend on the order of the operands:
    [a.Dot(b) == b.Dot(a)]. *)
Theorem Vector_Dot_commutes (Size : size_t) (a b : Vector.t T Size) :
  Vector.wf a -> Vector.wf b ->
  Vector.Dot a b =
    Ok (sum_upto Size (fun i => mul (component a i) (component b i))) /\
  Vector.Dot b a = Vector.Dot a b.
Proof.
  intros Ha Hb. split; [now apply Vector_Dot_spec |].
  rewrite !Vector_Dot_spec by assumption. f_equal.
  apply sum_upto_ext. intros m _. ring.
Qed.

(** X10: over a ring, [Sum] and [Dot] are additive and [Dot] commutes
    with scaling: [(a + b).Sum() == a.Sum() + b.Sum()],
    [(a + b).Dot(c) == a.Dot(c) + b.Dot(c)] and
    [a.Scale(s).Dot(c) == a.Dot(c) * s]. *)
Theorem Vector_Sum_Dot_linear (Size : size_t) (a b c : Vector.t T Size)
        (s : T) :
  Vector.wf a -> Vector.wf b -> Vector.wf c ->
  exists ab sa sb sab ac bc,
    Vector.Add_vec a b = Ok ab /\
    Vector.Sum a = Ok sa /\ Vector.Sum b = Ok sb /\
    Vector.Sum ab = Ok (add sa sb) /\
    Vector.Scale a s = Ok sab /\
    Vector.Dot a c = Ok ac /\ Vector.Dot b c = Ok bc /\
    Vector.Dot ab c = Ok (add ac bc) /\
    Vector.Dot sab c = Ok (mul ac s).
Proof.
  intros Ha Hb Hc.
  destruct (Vector_vector_loops Size a b Ha Hb) as (EA & _).
  destruct (Vector_scalar_loops Size a s Ha) as (_ & _ & ES & _).
  pose proof (Vector_wf_zip_with Size a b add Ha Hb) as Hab.
  pose proof (Vector_wf_map Size a (fun e => mul e s) Ha) as Hsa.
  assert (Hcomp : forall m, m < Size ->
            component (Vector.mk (Size := Size)
                         (zip_with add (Vector.data a) (Vector.data b))) m =
            add (component a m) (component b m)).
  { intros m Hm. unfold component. simpl.
    unfold Vector.wf in Ha, Hb. apply nth_zip_with; lia. }
  assert (Hcomps : forall m, m < Size ->
            component (Vector.mk (Size := Size)
                         (map (fun e => mul e s) (Vector.data a))) m =
            mul (component a m) s).
  { intros m Hm. unfold component. simpl.
    unfold Vector.wf in Ha.
    rewrite (nth_indep _ zero (mul zero s))
      by (rewrite length_map; lia).
    now rewrite (map_nth (fun e => mul e s)). }
  do 6 eexists.
  split; [exact EA |].
  split; [now apply Vector_Sum_spec |].
  split; [now apply Vector_Sum_spec |].
  split.
  { rewrite Vector_Sum_spec by exact Hab. f_equal.
    rewrite <- sum_upto_add. now apply sum_upto_ext. }
  split; [exact ES |].
  split; [now apply Vector_Dot_spec |].
  split; [now apply Vector_Dot_spec |].
  split.
  - rewrite Vector_Dot_spec by assumption. f_equal.
    rewrite <- sum_upto_add. apply sum_upto_ext. intros m Hm.
    rewrite (Hcomp m Hm). ring.
  - rewrite Vector_Dot_spec by assumption. f_equal.
    rewrite <- sum_upto_mul_r. apply sum_upto_ext. intros m Hm.
    rewrite (Hcomps m Hm). ring.
Qed.

(** X11: over a ring, the cross product is orthogonal to both operands:
    [a.Dot(a.Cross(b)) == 0] and [b.Dot(a.Cross(b)) == 0]. *)
Theorem Vector_Cross_is_orthogonal (a b uninit : Vector.t T 3) :
  Vector.wf a -> Vector.wf b -> Vector.wf uninit ->
  exists c, Vector.Cross uninit a b = Ok c /\
            Vector.Dot a c = Ok zero /\ Vector.Dot b c = Ok zero.
Proof.
  intros Ha Hb Hu.
  destruct (Vector3_elements Ha) as (a0 & a1 & a2 & ->).
  destruct (Vector3_elements Hb) as (b0 & b1 & b2 & ->).
  rewrite (Vector_Cross_elements a0 a1 a2 b0 b1 b2 Hu).
  eexists. split; [reflexivity |].
  split; (rewrite Vector_Dot_spec by (try assumption; reflexivity);
          f_equal; unfold sum_upto, component; simpl; ring).
Qed.

End DotRing.

Lemma Vector_Dot_commutes_witness :
  let a := Vector.mk (Size := 2) [u32 1; u32 2] in
  let b := Vector.mk (Size := 2) [u32 3; u32 4] in
  Vector.Dot a b =
    Ok (sum_upto 2 (fun i => mul (component a i) (component b i))) /\
  Vector.Dot b a = Vector.Dot a b.
Proof.
  intros a b.
  apply (@Vector_Dot_commutes uint32_t _ ScalarRing_uint32 2 a b);
    reflexivity.
Defined.

Lemma Vector_Sum_Dot_linear_witness :
  let a := Vector.mk (Size := 2) [u32 1; u32 2] in
  let b := Vector.mk (Size := 2) [u32 3; u32 4] in
  let c := Vector.mk (Size := 2) [u32 5; u32 6] in
  exists ab sa sb sab ac bc,
    Vector.Add_vec a b = Ok ab /\
    Vector.Sum a = Ok sa /\ Vector.Sum b = Ok sb /\
    Vector.Sum ab = Ok (add sa sb) /\
    Vector.Scale a (u32 7) = Ok sab /\
    Vector.Dot a c = Ok ac /\ Vector.Dot b c = Ok bc /\
    Vector.Dot ab c = Ok (add ac bc) /\
    Vector.Dot sab c = Ok (mul ac (u32 7)).
Proof.
  intros a b c.
  apply (@Vector_Sum_Dot_linear uint32_t _ ScalarRing_uint32 2 a b c (u32 7));
    reflexivity.
Defined.

Lemma Vector_Cross_is_orthogonal_witness :
  let a := Vector.mk (Size := 3) [u32 1; u32 2; u32 3] in
  let b := Vector.mk (Size := 3) [u32 4; u32 5; u32 6] in
  let uninit := Vector.mk (Size := 3) [u32 9; u32 9; u32 9] in
  exists c, Vector.Cross uninit a b = Ok c /\
            Vector.Dot a c = Ok zero /\ Vector.Dot b c = Ok zero.
Proof.
  intros a b uninit.
  apply (@Vector_Cross_is_orthogonal uint32_t _ ScalarRing_uint32 a b uninit);
    reflexivity.
Defined.

(* ------------------------------------------------------------------ *)
(** ** Element-wise operations on matrices *)

Section MatrixElementwise.
Context {T : Type} {Sc : Scalar T}.

Lemma Matrix_eta (Rows Cols : size_t) (m : Matrix.t T Rows Cols) :
  Matrix.mk (Matrix.data m) = m.
Proof. now destruct m. Qed.

Lemma Matrix_index_set_step (Rows Cols : size_t) (s : Matrix.t T Rows Cols)
      (i : size_t) (x : T) :
  N.of_nat (length (Matrix.data s)) = wrap (Rows * Cols) ->
  i < wrap (Rows * Cols) ->
  Matrix.index_set i x s =
  (Ok tt, Matrix.mk (update (Matrix.data s) (N.to_nat i) x)).
Proof.
  intros Hl Hi. unfold Matrix.index_set, bind, get, lift, put.
  now rewrite write_in_range by lia.
Qed.

Lemma Matrix_update_at_step (Rows Cols : size_t) (s : Matrix.t T Rows Cols)
      (i : size_t) (f : T -> T) (e : T) :
  N.of_nat (length (Matrix.data s)) = wrap (Rows * Cols) ->
  i < wrap (Rows * Cols) ->
  nth_error (Matrix.data s) (N.to_nat i) = Some e ->
  Matrix.update_at i f s =
  (Ok tt, Matrix.mk (update (Matrix.data s) (N.to_nat i) (f e))).
Proof.
  intros Hl Hi He. unfold Matrix.update_at, bind, get, lift, put, read.
  rewrite He. now rewrite write_in_range by lia.
Qed.

Lemma Matrix_loop_result (Rows Cols : size_t) (m s' : Matrix.t T Rows Cols)
      (l : list T) :
  Matrix.wf m -> length l = length (Matrix.data m) ->
  N.of_nat (length (Matrix.data s')) = wrap (Rows * Cols) ->
  (forall i e, i < wrap (Rows * Cols) ->
               nth_error (Matrix.data m) (N.to_nat i) = Some e ->
               nth_error (Matrix.data s') (N.to_nat i) =
               nth_error l (N.to_nat i)) ->
  s' = Matrix.mk l.
Proof.
  intros Hwf Hlen Hl Hs'. rewrite <- (Matrix_eta _ _ s'). f_equal.
  unfold Matrix.wf in Hwf. apply nth_error_ext. intros i.
  destruct (nth_error (Matrix.data m) i) as [e |] eqn:E.
  - assert (Hi : (i < length (Matrix.data m))%nat)
      by (apply nth_error_Some; congruence).
    specialize (Hs' (N.of_nat i) e). rewrite Nat2N.id in Hs'.
    apply Hs'; [lia | exact E].
  - apply nth_error_None in E.
    rewrite (proj2 (nth_error_None (Matrix.data s') i)) by lia.
    rewrite (proj2 (nth_error_None l i)) by lia. reflexivity.
Qed.

Lemma nth_error_zip_with (g : T -> T -> T) (a b : list T) (i : nat) (x y : T) :
  nth_error a i = Some x -> nth_error b i = Some y ->
  nth_error (zip_with g a b) i = Some (g x y).
Proof.
  intros Ha Hb. unfold zip_with.
  now rewrite nth_error_map, (nth_error_combine a b i x y Ha Hb).
Qed.

(** The loop of the scalar operations. *)
Lemma Matrix_map_loop (Rows Cols : size_t) (m : Matrix.t T Rows Cols)
      (f : T -> T) :
  Matrix.wf m ->
  For (wrap (Rows * Cols)) (fun i => Matrix.update_at i f) m =
  (Ok tt, Matrix.mk (map f (Matrix.data m))).
Proof.
  intros Hwf.
  destruct (@For_elementwise T _ Matrix.data (wrap (Rows * Cols))
              (fun i => Matrix.update_at i f) (fun _ e => f e) m Hwf)
    as (s' & E & Hl & Hs').
  { intros i s e Hi Hl He. eexists.
    split; [exact (Matrix_update_at_step Rows Cols s i f e Hl Hi He)
           | reflexivity]. }
  rewrite E. f_equal.
  apply (Matrix_loop_result Rows Cols m); try assumption.
  - now rewrite length_map.
  - intros i e Hi He. rewrite (Hs' i e Hi He), nth_error_map, He.
    reflexivity.
Qed.

(** The loop of the matrix operations: [data[i] op= mat.data[i]]. *)
Lemma Matrix_zip_loop (Rows Cols : size_t) (m mat : Matrix.t T Rows Cols)
      (g : T -> T -> T) :
  Matrix.wf m -> Matrix.wf mat ->
  For (wrap (Rows * Cols)) (fun i =>
        b <- lift (read (Matrix.data mat) i) ;;
        Matrix.update_at i (fun e => g e b))%M m =
  (Ok tt, Matrix.mk (zip_with g (Matrix.data m) (Matrix.data mat))).
Proof.
  intros Hwf Hmat.
  destruct (@For_elementwise T _ Matrix.data (wrap (Rows * Cols))
              (fun i => b <- lift (read (Matrix.data mat) i) ;;
                        Matrix.update_at i (fun e => g e b))%M
              (fun i e => g e (nth (N.to_nat i) (Matrix.data mat) zero))
              m Hwf)
    as (s' & E & Hl & Hs').
  { intros i s e Hi Hl He.
    destruct (read_Some (Matrix.data mat) (i := i)) as (b & Hb & Hnb);
      [unfold Matrix.wf in Hmat; lia |].
    eexists. split.
    - unfold bind at 1. unfold lift. rewrite Hb.
      exact (Matrix_update_at_step Rows Cols s i (fun e => g e b) e Hl Hi He).
    - now rewrite (nth_error_nth _ _ zero Hnb). }
  rewrite E. f_equal. unfold Matrix.wf in Hwf, Hmat.
  apply (Matrix_loop_result Rows Cols m); try assumption.
  - rewrite zip_with_length; lia.
  - intros i e Hi He.
    destruct (read_Some (Matrix.data mat) (i := i)) as (b & _ & Hnb);
      [lia |].
    rewrite (Hs' i e Hi He), (nth_error_zip_with g _ _ _ e b He Hnb).
    now rewrite (nth_error_nth _ _ zero Hnb).
Qed.

(** The loop of the in-place matrix operations:
    [data[i] = data[i] op mat.data[i]]. *)
Lemma Matrix_zip_loop_in_place (Rows Cols : size_t)
      (m mat : Matrix.t T Rows Cols) (g : T -> T -> T) :
  Matrix.wf m -> Matrix.wf mat ->
  For (wrap (Rows * Cols)) (fun i =>
        this <- get ;;
        a <- lift (read (Matrix.data this) i) ;;
        b <- lift (read (Matrix.data mat) i) ;;
        Matrix.index_set i (g a b))%M m =
  (Ok tt, Matrix.mk (zip_with g (Matrix.data m) (Matrix.data mat))).
Proof.
  intros Hwf Hmat.
  destruct (@For_elementwise T _ Matrix.data (wrap (Rows * Cols))
              (fun i => this <- get ;;
                        a <- lift (read (Matrix.data this) i) ;;
                        b <- lift (read (Matrix.data mat) i) ;;
                        Matrix.index_set i (g a b))%M
              (fun i e => g e (nth (N.to_nat i) (Matrix.data mat) zero))
              m Hwf)
    as (s' & E & Hl & Hs').
  { intros i s e Hi Hl He.
    destruct (read_Some (Matrix.data mat) (i := i)) as (b & Hb & Hnb);
      [unfold Matrix.wf in Hmat; lia |].
    eexists. split.
    - unfold bind, get, lift, read at 1. rewrite He, Hb.
      exact (Matrix_index_set_step Rows Cols s i (g e b) Hl Hi).
    - now rewrite (nth_error_nth _ _ zero Hnb). }
  rewrite E. f_equal. unfold Matrix.wf in Hwf, Hmat.
  apply (Matrix_loop_result Rows Cols m); try assumption.
  - rewrite zip_with_length; lia.
  - intros i e Hi He.
    destruct (read_Some (Matrix.data mat) (i := i)) as (b & _ & Hnb);
      [lia |].
    rewrite (Hs' i e Hi He), (nth_error_zip_with g _ _ _ e b He Hnb).
    now rewrite (nth_error_nth _ _ zero Hnb).
Qed.

(** The scalar operations of a matrix and their in-place forms, element by element. *)
Lemma Matrix_scalar_loops (Rows Cols : size_t)
        (m : Matrix.t T Rows Cols) (s : T) :
  Matrix.wf m ->
  Matrix.Add_scalar m s =
    Ok (Matrix.mk (map (fun e => add e s) (Matrix.data m))) /\
  Matrix.Subtract_scalar m s =
    Ok (Matrix.mk (map (fun e => sub e s) (Matrix.data m))) /\
  Matrix.Scale m s =
    Ok (Matrix.mk (map (fun e => mul e s) (Matrix.data m))) /\
  Matrix.AddInPlace_scalar s m =
    (Ok tt, Matrix.mk (map (fun e => add e s) (Matrix.data m))) /\
  Matrix.SubtractInPlace_scalar s m =
    (Ok tt, Matrix.mk (map (fun e => sub e s) (Matrix.data m))) /\
  Matrix.ScaleInPlace s m =
    (Ok tt, Matrix.mk (map (fun e => mul e s) (Matrix.data m))).
Proof.
  intros Hwf.
  unfold Matrix.Add_scalar, Matrix.Subtract_scalar, Matrix.Scale,
    Matrix.AddInPlace_scalar, Matrix.SubtractInPlace_scalar,
    Matrix.ScaleInPlace, exec.
  rewrite !Matrix_map_loop by exact Hwf. repeat split.
Qed.

(** X14: the scalar operations [Add], [Subtract] and [Scale] of a matrix
    return normally with every element of the flat array combined with
    the scalar, and the in-place forms leave exactly that matrix in
    [this]. *)
Theorem Matrix_scalar_operations (Rows Cols : size_t)
        (m : Matrix.t T Rows Cols) (s : T) :
  Matrix.wf m ->
  Matrix.Add_scalar m s =
    Ok (Matrix.mk (map (fun e => add e s) (Matrix.data m))) /\
  Matrix.Subtract_scalar m s =
    Ok (Matrix.mk (map (fun e => sub e s) (Matrix.data m))) /\
  Matrix.Scale m s =
    Ok (Matrix.mk (map (fun e => mul e s) (Matrix.data m))) /\
  Matrix.AddInPlace_scalar s m =
    (Ok tt, Matrix.mk (map (fun e => add e s) (Matrix.data m))) /\
  Matrix.SubtractInPlace_scalar s m =
    (Ok tt, Matrix.mk (map (fun e => sub e s) (Matrix.data m))) /\
  Matrix.ScaleInPlace s m =
    (Ok tt, Matrix.mk (map (fun e => mul e s) (Matrix.data m))).
Proof.
  intros Hwf.
  unfold Matrix.Add_scalar, Matrix.Subtract_scalar, Matrix.Scale,
    Matrix.AddInPlace_scalar, Matrix.SubtractInPlace_scalar,
    Matrix.ScaleInPlace, exec.
  rewrite !Matrix_map_loop by exact Hwf. repeat split.
Qed.

(** The matrix operations and their in-place forms, element by element. *)
Lemma Matrix_matrix_loops (Rows Cols : size_t)
        (m mat : Matrix.t T Rows Cols) :
  Matrix.wf m -> Matrix.wf mat ->
  Matrix.Add_mat m mat =
    Ok (Matrix.mk (zip_with add (Matrix.data m) (Matrix.data mat))) /\
  Matrix.Subtract_mat m mat =
    Ok (Matrix.mk (zip_with sub (Matrix.data m) (Matrix.data mat))) /\
  Matrix.Hadamard m mat =
    Ok (Matrix.mk (zip_with mul (Matrix.data m) (Matrix.data mat))) /\
  Matrix.AddInPlace_mat mat m =
    (Ok tt, Matrix.mk (zip_with add (Matrix.data m) (Matrix.data mat))) /\
  Matrix.SubtractInPlace_mat mat m =
    (Ok tt, Matrix.mk (zip_with sub (Matrix.data m) (Matrix.data mat))) /\
  Matrix.HadamardInPlace mat m =
    (Ok tt, Matrix.mk (zip_with mul (Matrix.data m) (Matrix.data mat))).
Proof.
  intros Hwf Hmat.
  unfold Matrix.Add_mat, Matrix.Subtract_mat, Matrix.Hadamard,
    Matrix.AddInPlace_mat, Matrix.SubtractInPlace_mat,
    Matrix.HadamardInPlace, exec.
  rewrite (Matrix_zip_loop Rows Cols m mat add Hwf Hmat).
  rewrite (Matrix_zip_loop Rows Cols m mat sub Hwf Hmat).
  rewrite (Matrix_zip_loop Rows Cols m mat mul Hwf Hmat).
  rewrite (Matrix_zip_loop_in_place Rows Cols m mat add Hwf Hmat).
  rewrite (Matrix_zip_loop_in_place Rows Cols m mat sub Hwf Hmat).
  rewrite (Matrix_zip_loop_in_place Rows Cols m mat mul Hwf Hmat).
  repeat split.
Qed.

(** X15: the matrix operations [Add], [Subtract] and [Hadamard] return
    normally with the element-wise sum, difference and product of the
    two flat arrays, and the in-place forms, written
    [data[i] = data[i] op mat.data[i]], leave exactly that matrix in
    [this]. *)
Theorem Matrix_matrix_operations (Rows Cols : size_t)
        (m mat : Matrix.t T Rows Cols) :
  Matrix.wf m -> Matrix.wf mat ->
  Matrix.Add_mat m mat =
    Ok (Matrix.mk (zip_with add (Matrix.data m) (Matrix.data mat))) /\
  Matrix.Subtract_mat m mat =
    Ok (Matrix.mk (zip_with sub (Matrix.data m) (Matrix.data mat))) /\
  Matrix.Hadamard m mat =
    Ok (Matrix.mk (zip_with mul (Matrix.data m) (Matrix.data mat))) /\
  Matrix.AddInPlace_mat mat m =
    (Ok tt, Matrix.mk (zip_with add (Matrix.data m) (Matrix.data mat))) /\
  Matrix.SubtractInPlace_mat mat m =
    (Ok tt, Matrix.mk (zip_with sub (Matrix.data m) (Matrix.data mat))) /\
  Matrix.HadamardInPlace mat m =
    (Ok tt, Matrix.mk (zip_with mul (Matrix.data m) (Matrix.data mat))).
Proof.
  intros Hwf Hmat.
  unfold Matrix.Add_mat, Matrix.Subtract_mat, Matrix.Hadamard,
    Matrix.AddInPlace_mat, Matrix.SubtractInPlace_mat,
    Matrix.HadamardInPlace, exec.
  rewrite (Matrix_zip_loop Rows Cols m mat add Hwf Hmat).
  rewrite (Matrix_zip_loop Rows Cols m mat sub Hwf Hmat).
  rewrite (Matrix_zip_loop Rows Cols m mat mul Hwf Hmat).
  rewrite (Matrix_zip_loop_in_place Rows Cols m mat add Hwf Hmat).
  rewrite (Matrix_zip_loop_in_place Rows Cols m mat sub Hwf Hmat).
  rewrite (Matrix_zip_loop_in_place Rows Cols m mat mul Hwf Hmat).
  repeat split.
Qed.

Lemma Matrix_wf_zip_with (Rows Cols : size_t) (m mat : Matrix.t T Rows Cols)
      (g : T -> T -> T) :
  Matrix.wf m -> Matrix.wf mat ->
  Matrix.wf (Rows := Rows) (Cols := Cols)
            (Matrix.mk (zip_with g (Matrix.data m) (Matrix.data mat))).
Proof.
  unfold Matrix.wf. simpl. intros Hm Hmat.
  rewrite zip_with_length; lia.
Qed.

Lemma Matrix_wf_map (Rows Cols : size_t) (m : Matrix.t T Rows Cols)
      (f : T -> T) :
  Matrix.wf m ->
  Matrix.wf (Rows := Rows) (Cols := Cols)
            (Matrix.mk (map f (Matrix.data m))).
Proof. unfold Matrix.wf. simpl. now rewrite length_map. Qed.

End MatrixElementwise.

Lemma Matrix_scalar_operations_witness :
  let m := Matrix.mk (Rows := 1) (Cols := 2) [u32 1; u32 2] in
  Matrix.Add_scalar m (u32 5) =
    Ok (Matrix.mk (map (fun e => add e (u32 5)) (Matrix.data m))) /\
  Matrix.Subtract_scalar m (u32 5) =
    Ok (Matrix.mk (map (fun e => sub e (u32 5)) (Matrix.data m))) /\
  Matrix.Scale m (u32 5) =
    Ok (Matrix.mk (map (fun e => mul e (u32 5)) (Matrix.data m))) /\
  Matrix.AddInPlace_scalar (u32 5) m =
    (Ok tt, Matrix.mk (map (fun e => add e (u32 5)) (Matrix.data m))) /\
  Matrix.SubtractInPlace_scalar (u32 5) m =
    (Ok tt, Matrix.mk (map (fun e => sub e (u32 5)) (Matrix.data m))) /\
  Matrix.ScaleInPlace (u32 5) m =
    (Ok tt, Matrix.mk (map (fun e => mul e (u32 5)) (Matrix.data m))).
Proof.
  intros m.
  apply (@Matrix_scalar_operations uint32_t _ 1 2 m (u32 5)). reflexivity.
Defined.

Lemma Matrix_matrix_operations_witness :
  let m := Matrix.mk (Rows := 1) (Cols := 2) [u32 1; u32 2] in
  let mat := Matrix.mk (Rows := 1) (Cols := 2) [u32 3; u32 4] in
  Matrix.Add_mat m mat =
    Ok (Matrix.mk (zip_with add (Matrix.data m) (Matrix.data mat))) /\
  Matrix.Subtract_mat m mat =
    Ok (Matrix.mk (zip_with sub (Matrix.data m) (Matrix.data mat))) /\
  Matrix.Hadamard m mat =
    Ok (Matrix.mk (zip_with mul (Matrix.data m) (Matrix.data mat))) /\
  Matrix.AddInPlace_mat mat m =
    (Ok tt, Matrix.mk (zip_with add (Matrix.data m) (Matrix.data mat))) /\
  Matrix.SubtractInPlace_mat mat m =
    (Ok tt, Matrix.mk (zip_with sub (Matrix.data m) (Matrix.data mat))) /\
  Matrix.HadamardInPlace mat m =
    (Ok tt, Matrix.mk (zip_with mul (Matrix.data m) (Matrix.data mat))).
Proof.
  intros m mat.
  apply (@Matrix_matrix_operations uint32_t _ 1 2 m mat); reflexivity.
Defined.

(* ------------------------------------------------------------------ *)
(** ** Division by a scalar and normalization *)

Section DivisionUint32.

Add Ring uint32_ring :
  (ScalarRing_uint32 : ring_theory zero one add mul sub opp (@eq uint32_t)).

Lemma uint32_one_div (s : uint32_t) :
  (1 < word.unsigned s)%Z -> div one s = Ok zero.
Proof.
  intros Hs. cbn [div ScalarDiv_uint32].
  rewrite word.unsigned_eqb, word.unsigned_of_Z_0.
  destruct (Z.eqb_spec (word.unsigned s) 0) as [H0 | _]; [lia |].
  f_equal. apply word.unsigned_inj.
  rewrite word.unsigned_divu by lia.
  cbn [one zero Scalar_uint32].
  rewrite word.unsigned_of_Z_1, word.unsigned_of_Z_0.
  rewrite Z.div_small by lia. reflexivity.
Qed.

(** X12: for [uint32_t] elements [v / s] is [v.Scale(1 / s)] with the
    integer quotient [1 / s], for vectors and for matrices: every
    divisor above 1 gives the zero vector or matrix, also through [/=],
    the divisor 1 gives the operand back, and the divisor 0 is an
    integer division by zero, whose behaviour is undefined, in [/] and
    in [/=]. *)
Theorem operator_div_uint32 (Size Rows Cols : size_t)
        (v : Vector.t uint32_t Size) (m : Matrix.t uint32_t Rows Cols)
        (s : uint32_t) :
  Vector.wf v -> Matrix.wf m ->
  ((1 < word.unsigned s)%Z ->
   Vector.operator_div v s =
     Ok (Vector.mk (repeat zero (N.to_nat Size))) /\
   Vector.operator_div_assign s v =
     (Ok tt, Vector.mk (repeat zero (N.to_nat Size))) /\
   Matrix.operator_div m s =
     Ok (Matrix.mk (repeat zero (length (Matrix.data m)))) /\
   Matrix.operator_div_assign s m =
     (Ok tt, Matrix.mk (repeat zero (length (Matrix.data m))))) /\
  (Vector.operator_div v (u32 1) = Ok v /\
   Matrix.operator_div m (u32 1) = Ok m) /\
  (Vector.operator_div v (u32 0) = Undefined /\
   fst (Vector.operator_div_assign (u32 0) v) = Undefined /\
   Matrix.operator_div m (u32 0) = Undefined /\
   fst (Matrix.operator_div_assign (u32 0) m) = Undefined).
Proof.
  intros Hwf Hm.
  assert (Hzero : forall l : list uint32_t,
            map (fun e : uint32_t => mul e zero) l = repeat zero (length l)).
  { intros l. rewrite <- map_const. apply map_ext. intros e. ring. }
  assert (Hone : forall l : list uint32_t,
            map (fun e : uint32_t => mul e one) l = l).
  { intros l. rewrite <- (map_id l) at 2. apply map_ext. intros e. ring. }
  split; [| split].
  - intros Hs.
    destruct (Vector_scalar_loops Size v zero Hwf)
      as (_ & _ & ES & _ & _ & ESI).
    destruct (Matrix_scalar_loops Rows Cols m zero Hm)
      as (_ & _ & EM & _ & _ & EMI).
    unfold Vector.operator_div, Vector.operator_div_assign,
      Matrix.operator_div, Matrix.operator_div_assign, bind, lift.
    rewrite (uint32_one_div s Hs). cbn [obind].
    rewrite ES, ESI, EM, EMI, !Hzero.
    replace (length (Vector.data v)) with (N.to_nat Size)
      by (unfold Vector.wf in Hwf; lia).
    repeat split.
  - destruct (Vector_scalar_loops Size v one Hwf) as (_ & _ & ES & _).
    destruct (Matrix_scalar_loops Rows Cols m one Hm)
      as (_ & _ & EM & _).
    unfold Vector.operator_div, Matrix.operator_div.
    change (div one (u32 1)) with (Ok (one : uint32_t)). cbn [obind].
    rewrite ES, EM, !Hone. now rewrite Vector_eta, Matrix_eta.
  - repeat split.
Qed.

End DivisionUint32.

Lemma operator_div_uint32_witness :
  let v := Vector.mk (Size := 2) [u32 6; u32 9] in
  let m := Matrix.mk (Rows := 1) (Cols := 2) [u32 6; u32 9] in
  ((1 < word.unsigned (u32 3))%Z ->
   Vector.operator_div v (u32 3) =
     Ok (Vector.mk (repeat zero (N.to_nat 2))) /\
   Vector.operator_div_assign (u32 3) v =
     (Ok tt, Vector.mk (repeat zero (N.to_nat 2))) /\
   Matrix.operator_div m (u32 3) =
     Ok (Matrix.mk (repeat zero (length (Matrix.data m)))) /\
   Matrix.operator_div_assign (u32 3) m =
     (Ok tt, Matrix.mk (repeat zero (length (Matrix.data m))))) /\
  (Vector.operator_div v (u32 1) = Ok v /\
   Matrix.operator_div m (u32 1) = Ok m) /\
  (Vector.operator_div v (u32 0) = Undefined /\
   fst (Vector.operator_div_assign (u32 0) v) = Undefined /\
   Matrix.operator_div m (u32 0) = Undefined /\
   fst (Matrix.operator_div_assign (u32 0) m) = Undefined).
Proof.
  intros v m.
  apply (operator_div_uint32 2 1 2 v m (u32 3)); reflexivity.
Defined.

Section Normalization.

Lemma zero_vector_sum_of_squares (n : nat) :
  fold_left (fun sum element : float => add sum (mul element element))
            (repeat 0%float n) 0%float = 0%float.
Proof.
  induction n as [| n IH]; simpl; [reflexivity |].
  change (add 0%float (mul 0%float 0%float)) with 0%float. exact IH.
Qed.

(** X13: [Normalize()] scales by the reciprocal of the magnitude
    without a guard: on a [double] vector of zeros, of any size, the
    magnitude is 0, the factor is infinity and every element of the
    result is NaN; [NormalizeInPlace()] leaves the same vector in
    [this]. *)
Theorem Vector_Normalize_zero_vector (n : nat) :
  let v := Vector.mk (T := float) (Size := N.of_nat n) (repeat 0%float n) in
  Vector.Magnitude v = Ok 0%float /\
  Vector.Normalize v = Ok (Vector.mk (repeat nan n)) /\
  Vector.NormalizeInPlace v = (Ok tt, Vector.mk (repeat nan n)).
Proof.
  intros v.
  assert (Hwf : Vector.wf v)
    by (unfold Vector.wf, v; simpl; now rewrite repeat_length).
  assert (Hmag : Vector.Magnitude v = Ok 0%float).
  { rewrite (Vector_Magnitude_accumulates Hwf). unfold v. simpl Vector.data.
    change (@zero float Scalar_double) with 0%float.
    rewrite zero_vector_sum_of_squares. reflexivity. }
  destruct (Vector_scalar_loops (N.of_nat n) v infinity Hwf)
    as (_ & _ & ES & _ & _ & ESI).
  assert (Hnan : map (fun e : float => mul e infinity) (repeat 0%float n) =
                 repeat nan n)
    by (rewrite map_repeat; reflexivity).
  split; [exact Hmag | split].
  - unfold Vector.Normalize. rewrite Hmag. cbn [obind].
    change (PrimFloat.div 1 0) with infinity.
    cbn [of_double FromDouble_double obind].
    rewrite ES. unfold v. simpl Vector.data. now rewrite Hnan.
  - unfold Vector.NormalizeInPlace, bind, get, lift. rewrite Hmag.
    change (PrimFloat.div 1 0) with infinity.
    cbn [of_double FromDouble_double].
    rewrite ESI. unfold v. simpl Vector.data. now rewrite Hnan.
Qed.

End Normalization.

(* ------------------------------------------------------------------ *)
(** ** Positions of a matrix *)

Section MatrixPositions.
Context {T : Type} {Sc : Scalar T}.

Lemma Matrix_data_length (Rows Cols : size_t) (m : Matrix.t T Rows Cols) :
  Matrix.wf m -> Rows * Cols < size_max ->
  N.of_nat (length (Matrix.data m)) = Rows * Cols.
Proof. intros Hwf Hsz. rewrite <- (wrap_small Hsz). exact Hwf. Qed.

Lemma Matrix_ext_entry (Rows Cols : size_t) (a b : Matrix.t T Rows Cols) :
  Matrix.wf a -> Matrix.wf b -> Rows * Cols < size_max ->
  (forall row col, row < Rows -> col < Cols ->
                   entry a row col = entry b row col) ->
  a = b.
Proof.
  intros Ha Hb Hsz H. apply Matrix_ext; try assumption.
  intros row col Hr Hc.
  rewrite (Matrix_At_rc_entry Ha Hsz Hr Hc), (Matrix_At_rc_entry Hb Hsz Hr Hc).
  now rewrite H.
Qed.

Lemma entry_zip_with (Rows Cols : size_t) (a b : Matrix.t T Rows Cols)
      (g : T -> T -> T) (row col : N) :
  Matrix.wf a -> Matrix.wf b -> Rows * Cols < size_max ->
  row < Rows -> col < Cols ->
  entry (Matrix.mk (Rows := Rows) (Cols := Cols)
           (zip_with g (Matrix.data a) (Matrix.data b))) row col =
  g (entry a row col) (entry b row col).
Proof.
  intros Ha Hb Hsz Hr Hc. unfold entry. simpl.
  pose proof (Matrix_data_length Rows Cols a Ha Hsz).
  pose proof (Matrix_data_length Rows Cols b Hb Hsz).
  destruct (flat_index_in_range Hsz Hr Hc) as (_ & Hlt).
  apply nth_zip_with; lia.
Qed.

Lemma entry_map (Rows Cols : size_t) (a : Matrix.t T Rows Cols)
      (f : T -> T) (row col : N) :
  Matrix.wf a -> Rows * Cols < size_max -> row < Rows -> col < Cols ->
  entry (Matrix.mk (Rows := Rows) (Cols := Cols) (map f (Matrix.data a)))
        row col =
  f (entry a row col).
Proof.
  intros Ha Hsz Hr Hc. unfold entry. simpl.
  pose proof (Matrix_data_length Rows Cols a Ha Hsz).
  destruct (flat_index_in_range Hsz Hr Hc) as (_ & Hlt).
  rewrite (nth_indep _ zero (f zero)) by (rewrite length_map; lia).
  now rewrite (map_nth f).
Qed.

Lemma Matrix_Multiply_entry (Rows Cols Cols2 : size_t)
      (uninit : Matrix.t T Rows Cols2)
      (a : Matrix.t T Rows Cols) (b : Matrix.t T Cols Cols2) :
  Matrix.wf a -> Matrix.wf b -> Matrix.wf uninit ->
  Rows * Cols < size_max -> Cols * Cols2 < size_max ->
  Rows * Cols2 < size_max ->
  exists p, Matrix.Multiply uninit a b = Ok p /\ Matrix.wf p /\
            forall row col, row < Rows -> col < Cols2 ->
              entry p row col =
              sum_upto Cols (fun m => mul (entry a row m) (entry b m col)).
Proof.
  intros Ha Hb Hu Hsa Hsb Hsp.
  destruct (Matrix_Multiply_spec Ha Hb Hu Hsa Hsb Hsp) as (p & Ep & Hwfp & Hp).
  exists p. split; [exact Ep | split; [exact Hwfp |]].
  intros row col Hr Hc. specialize (Hp row col Hr Hc).
  rewrite (Matrix_At_rc_entry Hwfp Hsp Hr Hc) in Hp. congruence.
Qed.

(** X16: a write through the checked [At(row, col)] at an in-range
    position changes that position and no other in-range position,
    whatever the other position's row and column; a write whose flat
    index is outside the array raises the index error and leaves the
    matrix as it was. *)
Theorem Matrix_At_rc_set_then_At_rc (Rows Cols : size_t)
        (m : Matrix.t T Rows Cols) (row col : size_t) (x : T) :
  Matrix.wf m -> Rows * Cols < size_max ->
  (row < Rows -> col < Cols ->
   exists m', Matrix.At_rc_set row col x m = (Ok tt, m') /\ Matrix.wf m' /\
              Matrix.At_rc m' row col = Ok x /\
              forall r c, r < Rows -> c < Cols -> r <> row \/ c <> col ->
                          Matrix.At_rc m' r c = Matrix.At_rc m r c) /\
  (Rows * Cols <= wrap (col * Rows + row) ->
   raises (fst (Matrix.At_rc_set row col x m)) IndexOutOfRange /\
   snd (Matrix.At_rc_set row col x m) = m).
Proof.
  intros Hwf Hsz. split.
  - intros Hr Hc.
    rewrite (Matrix_At_rc_set_in_range x Hwf Hsz Hr Hc).
    pose proof (Matrix_data_length Rows Cols m Hwf Hsz) as Hlen.
    destruct (flat_index_in_range Hsz Hr Hc) as (_ & Hlt).
    set (m' := Matrix.mk (Rows := Rows) (Cols := Cols)
                 (update (Matrix.data m) (N.to_nat (col * Rows + row)) x)).
    assert (Hwf' : Matrix.wf m')
      by (unfold Matrix.wf in *; simpl; now rewrite length_update).
    exists m'. split; [reflexivity | split; [exact Hwf' | split]].
    + destruct (Matrix_At_rc_in_range Hwf' Hsz Hr Hc) as (y & Hy & Hny).
      simpl in Hny. rewrite nth_error_update_same in Hny by lia. congruence.
    + intros r c Hr' Hc' Hne.
      destruct (Matrix_At_rc_in_range Hwf' Hsz Hr' Hc') as (y & Hy & Hny).
      destruct (Matrix_At_rc_in_range Hwf Hsz Hr' Hc') as (z & Hz & Hnz).
      simpl in Hny. rewrite nth_error_update_other in Hny.
      * congruence.
      * intros Heq.
        assert (col = c /\ row = r) as [-> ->]
            by (apply (@flat_index_inj Rows); lia).
        destruct Hne as [Hne | Hne]; now apply Hne.
  - intros Hout. unfold Matrix.At_rc_set, Matrix.At_set.
    rewrite flat_index_wrap, (wrap_small Hsz).
    destruct (N.leb_spec (Rows * Cols) (wrap (col * Rows + row))); [| lia].
    simpl. split; [eexists; split; reflexivity | reflexivity].
Qed.

(** X17: for every shape, [Assign(diagonal)] returns normally and stores
    the value chosen for the loop counters (row, col), [diagonal] when
    they are equal and 0 otherwise, at the flat index
    [row * Cols + col]: the array is filled in the order of the loops. *)
Theorem Matrix_Assign_diagonal_fills_in_loop_order (Rows Cols : size_t)
        (m : Matrix.t T Rows Cols) (diagonal : T) :
  Matrix.wf m -> Rows * Cols < size_max ->
  exists m', Matrix.Assign_diagonal diagonal m = (Ok tt, m') /\
             Matrix.wf m' /\
             forall row col, row < Rows -> col < Cols ->
               Matrix.At m' (row * Cols + col) =
               Ok (if row =? col then diagonal else zero).
Proof.
  intros Hwf Hsz.
  destruct (Matrix_Assign_diagonal_row_major diagonal Hwf Hsz)
    as (m' & E & Hwf' & Hfill).
  exists m'. split; [exact E | split; [exact Hwf' |]].
  intros row col Hr Hc.
  destruct (Matrix_At_in_range (index := row * Cols + col) Hwf')
    as (x & Hx & Hnx).
  - rewrite (wrap_small Hsz). nia.
  - rewrite (Hfill row col Hr Hc) in Hnx. congruence.
Qed.

End MatrixPositions.

Lemma Matrix_At_rc_set_then_At_rc_witness :
  let m := Matrix.mk (Rows := 2) (Cols := 2) [u32 1; u32 2; u32 3; u32 4] in
  (1 < 2 -> 0 < 2 ->
   exists m', Matrix.At_rc_set 1 0 (u32 9) m = (Ok tt, m') /\ Matrix.wf m' /\
              Matrix.At_rc m' 1 0 = Ok (u32 9) /\
              forall r c, r < 2 -> c < 2 -> r <> 1 \/ c <> 0 ->
                          Matrix.At_rc m' r c = Matrix.At_rc m r c) /\
  (2 * 2 <= wrap (0 * 2 + 1) ->
   raises (fst (Matrix.At_rc_set 1 0 (u32 9) m)) IndexOutOfRange /\
   snd (Matrix.At_rc_set 1 0 (u32 9) m) = m).
Proof.
  intros m.
  apply (@Matrix_At_rc_set_then_At_rc uint32_t 2 2 m 1 0 (u32 9));
    reflexivity.
Defined.

Lemma Matrix_Assign_diagonal_fills_in_loop_order_witness :
  let m := Matrix.mk (Rows := 2) (Cols := 3)
             [u32 9; u32 9; u32 9; u32 9; u32 9; u32 9] in
  exists m', Matrix.Assign_diagonal (u32 7) m = (Ok tt, m') /\
             Matrix.wf m' /\
             forall row col, row < 2 -> col < 3 ->
               Matrix.At m' (row * 3 + col) =
               Ok (if row =? col then u32 7 else zero).
Proof.
  intros m.
  apply (@Matrix_Assign_diagonal_fills_in_loop_order uint32_t _ 2 3 m (u32 7));
    reflexivity.
Defined.

(* ------------------------------------------------------------------ *)
(** ** Algebra of the matrix product *)

Section MatrixProductFormula.
Context {T : Type} {Sc : Scalar T}.

(** X18: for all shapes R x C and C x C2 (element counts fitting
    [size_t]) [Multiply] returns normally with the R x C2 matrix whose
    element (row, col) is the sum over [m < C], in this order from 0, of
    [this(row, m) * mat(m, col)]; the result does not depend on what the
    default-constructed [newMat] held. *)
Theorem Matrix_Multiply_is_the_product (Rows Cols Cols2 : size_t)
        (uninit uninit' : Matrix.t T Rows Cols2)
        (a : Matrix.t T Rows Cols) (b : Matrix.t T Cols Cols2) :
  Matrix.wf a -> Matrix.wf b -> Matrix.wf uninit -> Matrix.wf uninit' ->
  Rows * Cols < size_max -> Cols * Cols2 < size_max ->
  Rows * Cols2 < size_max ->
  exists p, Matrix.Multiply uninit a b = Ok p /\
            Matrix.Multiply uninit' a b = Ok p /\
            Matrix.wf p /\
            forall row col, row < Rows -> col < Cols2 ->
              Matrix.At_rc p row col =
              Ok (sum_upto Cols
                    (fun m => mul (entry a row m) (entry b m col))).
Proof.
  intros Ha Hb Hu Hu' Hsa Hsb Hsp.
  destruct (Matrix_Multiply_spec Ha Hb Hu Hsa Hsb Hsp) as (p & Ep & Hwfp & Hp).
  destruct (Matrix_Multiply_spec Ha Hb Hu' Hsa Hsb Hsp)
    as (p' & Ep' & Hwfp' & Hp').
  exists p. split; [exact Ep | split; [| split; [exact Hwfp | exact Hp]]].
  rewrite Ep'. f_equal. apply Matrix_ext; try assumption.
  intros row col Hr Hc. now rewrite Hp, Hp'.
Qed.

End MatrixProductFormula.

Lemma Matrix_Multiply_is_the_product_witness :
  let a := Matrix.mk (Rows := 2) (Cols := 3)
             [u32 1; u32 2; u32 3; u32 4; u32 5; u32 6] in
  let b := Matrix.mk (Rows := 3) (Cols := 2)
             [u32 1; u32 0; u32 2; u32 0; u32 1; u32 3] in
  let uninit := Matrix.mk (Rows := 2) (Cols := 2)
                  [u32 9; u32 9; u32 9; u32 9] in
  let uninit' := Matrix.mk (Rows := 2) (Cols := 2)
                   [u32 0; u32 0; u32 0; u32 0] in
  exists p, Matrix.Multiply uninit a b = Ok p /\
            Matrix.Multiply uninit' a b = Ok p /\
            Matrix.wf p /\
            forall row col, row < 2 -> col < 2 ->
              Matrix.At_rc p row col =
              Ok (sum_upto 3 (fun m => mul (entry a row m) (entry b m col))).
Proof.
  intros a b uninit uninit'.
  apply (@Matrix_Multiply_is_the_product uint32_t _ 2 3 2 uninit uninit' a b);
    reflexivity.
Defined.

Section MatrixProductRing.
Context {T : Type} {Sc : Scalar T}.
Hypothesis Tring : ScalarRing T.

Add Ring T_ring_product :
  (Tring : ring_theory zero one add mul sub opp (@eq T)).

Lemma sum_upto_zero (n : N) : sum_upto n (fun _ => zero) = (zero : T).
Proof.
  induction n as [| n IH] using N.peano_ind.
  - reflexivity.
  - rewrite <- N.add_1_r, sum_upto_succ, IH. ring.
Qed.

(** Two nested sums can be exchanged. *)
Lemma sum_upto_swap (n m : N) (f : N -> N -> T) :
  sum_upto n (fun i => sum_upto m (fun j => f i j)) =
  sum_upto m (fun j => sum_upto n (fun i => f i j)).
Proof.
  induction n as [| n IH] using N.peano_ind.
  - unfold sum_upto at 1. simpl. symmetry.
    rewrite <- (sum_upto_zero m). apply sum_upto_ext. reflexivity.
  - rewrite <- N.add_1_r, sum_upto_succ, IH.
    rewrite <- (sum_upto_add Tring). apply sum_upto_ext.
    intros j _. now rewrite sum_upto_succ.
Qed.

(** X20: over a ring the matrix product is associative:
    [(A * B) * C == A * (B * C)] for all compatible shapes whose element
    counts fit [size_t]. *)
Theorem Matrix_Multiply_associative (R C C2 C3 : size_t)
        (a : Matrix.t T R C) (b : Matrix.t T C C2) (d : Matrix.t T C2 C3)
        (u1 : Matrix.t T R C2) (u2 u4 : Matrix.t T R C3)
        (u3 : Matrix.t T C C3) :
  Matrix.wf a -> Matrix.wf b -> Matrix.wf d ->
  Matrix.wf u1 -> Matrix.wf u2 -> Matrix.wf u3 -> Matrix.wf u4 ->
  R * C < size_max -> C * C2 < size_max -> R * C2 < size_max ->
  C2 * C3 < size_max -> R * C3 < size_max -> C * C3 < size_max ->
  exists ab bd p,
    Matrix.Multiply u1 a b = Ok ab /\ Matrix.Multiply u2 ab d = Ok p /\
    Matrix.Multiply u3 b d = Ok bd /\ Matrix.Multiply u4 a bd = Ok p.
Proof.
  intros Ha Hb Hd H1 H2 H3 H4 S1 S2 S3 S4 S5 S6.
  destruct (Matrix_Multiply_entry R C C2 u1 a b Ha Hb H1 S1 S2 S3)
    as (ab & Eab & Hwab & Hab).
  destruct (Matrix_Multiply_entry R C2 C3 u2 ab d Hwab Hd H2 S3 S4 S5)
    as (p & Ep & Hwp & Hp).
  destruct (Matrix_Multiply_entry C C2 C3 u3 b d Hb Hd H3 S2 S4 S6)
    as (bd & Ebd & Hwbd & Hbd).
  destruct (Matrix_Multiply_entry R C C3 u4 a bd Ha Hwbd H4 S1 S6 S5)
    as (q & Eq & Hwq & Hq).
  exists ab, bd, p.
  split; [exact Eab | split; [exact Ep | split; [exact Ebd |]]].
  rewrite Eq. f_equal. apply Matrix_ext_entry; try assumption.
  intros row col Hr Hc. rewrite (Hq row col Hr Hc), (Hp row col Hr Hc).
  transitivity
    (sum_upto C (fun j => sum_upto C2 (fun k =>
       mul (mul (entry a row j) (entry b j k)) (entry d k col)))).
  - apply sum_upto_ext. intros j Hj. rewrite (Hbd j col Hj Hc).
    rewrite <- (sum_upto_mul_l Tring). apply sum_upto_ext.
    intros k _. ring.
  - rewrite sum_upto_swap. apply sum_upto_ext. intros k Hk.
    rewrite (Hab row k Hr Hk). now rewrite <- (sum_upto_mul_r Tring).
Qed.

(** X22: over a ring the matrix product distributes over the
    element-wise sum: [A * (B + C) == A * B + A * C]. *)
Theorem Matrix_Multiply_distributes_over_Add (R C C2 : size_t)
        (a : Matrix.t T R C) (b d : Matrix.t T C C2)
        (u1 u2 u3 : Matrix.t T R C2) :
  Matrix.wf a -> Matrix.wf b -> Matrix.wf d ->
  Matrix.wf u1 -> Matrix.wf u2 -> Matrix.wf u3 ->
  R * C < size_max -> C * C2 < size_max -> R * C2 < size_max ->
  exists bd p ab ad,
    Matrix.Add_mat b d = Ok bd /\ Matrix.Multiply u1 a bd = Ok p /\
    Matrix.Multiply u2 a b = Ok ab /\ Matrix.Multiply u3 a d = Ok ad /\
    Matrix.Add_mat ab ad = Ok p.
Proof.
  intros Ha Hb Hd H1 H2 H3 S1 S2 S3.
  destruct (Matrix_matrix_loops C C2 b d Hb Hd) as (EA & _).
  pose proof (Matrix_wf_zip_with C C2 b d add Hb Hd) as Hbd.
  destruct (Matrix_Multiply_entry R C C2 u1 a _ Ha Hbd H1 S1 S2 S3)
    as (p & Ep & Hwp & Hp).
  destruct (Matrix_Multiply_entry R C C2 u2 a b Ha Hb H2 S1 S2 S3)
    as (ab & Eab & Hwab & Hab).
  destruct (Matrix_Multiply_entry R C C2 u3 a d Ha Hd H3 S1 S2 S3)
    as (ad & Ead & Hwad & Had).
  destruct (Matrix_matrix_loops R C2 ab ad Hwab Hwad) as (EA' & _).
  exists (Matrix.mk (zip_with add (Matrix.data b) (Matrix.data d))),
    p, ab, ad.
  split; [exact EA | split; [exact Ep | split; [exact Eab |]]].
  split; [exact Ead |].
  rewrite EA'. f_equal. symmetry. apply Matrix_ext_entry; try assumption.
  - now apply Matrix_wf_zip_with.
  - intros row col Hr Hc.
    rewrite (entry_zip_with R C2 ab ad add row col Hwab Hwad S3 Hr Hc).
    rewrite (Hp row col Hr Hc), (Hab row col Hr Hc), (Had row col Hr Hc).
    rewrite <- (sum_upto_add Tring). apply sum_upto_ext. intros m Hm.
    rewrite (entry_zip_with C C2 b d add m col Hb Hd S2 Hm Hc). ring.
Qed.

End MatrixProductRing.

Lemma Matrix_Multiply_associative_witness :
  let a := Matrix.mk (Rows := 1) (Cols := 2) [u32 1; u32 2] in
  let b := Matrix.mk (Rows := 2) (Cols := 2) [u32 1; u32 2; u32 3; u32 4] in
  let d := Matrix.mk (Rows := 2) (Cols := 1) [u32 5; u32 6] in
  let u12 := Matrix.mk (Rows := 1) (Cols := 2) [u32 0; u32 0] in
  let u11 := Matrix.mk (Rows := 1) (Cols := 1) [u32 0] in
  let u21 := Matrix.mk (Rows := 2) (Cols := 1) [u32 0; u32 0] in
  exists ab bd p,
    Matrix.Multiply u12 a b = Ok ab /\ Matrix.Multiply u11 ab d = Ok p /\
    Matrix.Multiply u21 b d = Ok bd /\ Matrix.Multiply u11 a bd = Ok p.
Proof.
  intros a b d u12 u11 u21.
  apply (@Matrix_Multiply_associative uint32_t _ ScalarRing_uint32
           1 2 2 1 a b d u12 u11 u11 u21); reflexivity.
Defined.

Lemma Matrix_Multiply_distributes_over_Add_witness :
  let a := Matrix.mk (Rows := 1) (Cols := 2) [u32 1; u32 2] in
  let b := Matrix.mk (Rows := 2) (Cols := 1) [u32 3; u32 4] in
  let d := Matrix.mk (Rows := 2) (Cols := 1) [u32 5; u32 6] in
  let u := Matrix.mk (Rows := 1) (Cols := 1) [u32 0] in
  exists bd p ab ad,
    Matrix.Add_mat b d = Ok bd /\ Matrix.Multiply u a bd = Ok p /\
    Matrix.Multiply u a b = Ok ab /\ Matrix.Multiply u a d = Ok ad /\
    Matrix.Add_mat ab ad = Ok p.
Proof.
  intros a b d u.
  apply (@Matrix_Multiply_distributes_over_Add uint32_t _ ScalarRing_uint32
           1 2 1 a b d u u u); reflexivity.
Defined.

(* ------------------------------------------------------------------ *)
(** ** Matrix times vector, in general *)

Section MatrixVectorProduct.
Context {T : Type} {Sc : Scalar T}.

(** X23: when the matrix has no more columns than rows, [Multiply(vec)]
    returns normally with the vector whose element [row] is the sum over
    [m < Cols] of [this(row, m) * vec[m]]: the elements of [vec] from
    [Cols] on are not used.  When it has more columns than rows and at
    least one row, the first row reads [vec.data[Rows]], past the end of
    [vec], and the result is undefined. *)
Theorem Matrix_Multiply_vec_by_shape (Rows Cols : size_t)
        (uninit vec : Vector.t T Rows) (a : Matrix.t T Rows Cols) :
  Matrix.wf a -> Vector.wf vec -> Vector.wf uninit ->
  Rows * Cols < size_max ->
  (Cols <= Rows ->
   exists r, Matrix.Multiply_vec uninit a vec = Ok r /\ Vector.wf r /\
             forall row, row < Rows ->
               Vector.At r row =
               Ok (sum_upto Cols
                     (fun m => mul (entry a row m) (component vec m)))) /\
  (0 < Rows -> Rows < Cols ->
   Matrix.Multiply_vec uninit a vec = Undefined).
Proof.
  intros Ha Hv Hu Hsz. split.
  - intros Hle. now apply Matrix_Multiply_vec_spec.
  - intros Hpos Hlt. now apply Matrix_Multiply_vec_reads_past_end.
Qed.

End MatrixVectorProduct.

Lemma Matrix_Multiply_vec_by_shape_witness :
  let a := Matrix.mk (Rows := 2) (Cols := 1) [u32 3; u32 4] in
  let vec := Vector.mk (Size := 2) [u32 5; u32 6] in
  let uninit := Vector.mk (Size := 2) [u32 0; u32 0] in
  (1 <= 2 ->
   exists r, Matrix.Multiply_vec uninit a vec = Ok r /\ Vector.wf r /\
             forall row, row < 2 ->
               Vector.At r row =
               Ok (sum_upto 1
                     (fun m => mul (entry a row m) (component vec m)))) /\
  (0 < 2 -> 2 < 1 ->
   Matrix.Multiply_vec uninit a vec = Undefined).
Proof.
  intros a vec uninit.
  apply (@Matrix_Multiply_vec_by_shape uint32_t _ 2 1 uninit vec a);
    reflexivity.
Defined.

Section MatrixVectorRing.
Context {T : Type} {Sc : Scalar T}.
Hypothesis Tring : ScalarRing T.

Add Ring T_ring_matvec :
  (Tring : ring_theory zero one add mul sub opp (@eq T)).

Lemma Vector_ext (Size : size_t) (a b : Vector.t T Size) :
  Vector.wf a -> Vector.wf b ->
  (forall i, i < Size -> Vector.At a i = Vector.At b i) -> a = b.
Proof.
  intros Ha Hb H. rewrite <- (Vector_eta _ a), <- (Vector_eta _ b). f_equal.
  apply nth_error_ext. intros i. unfold Vector.wf in Ha, Hb.
  destruct (N.lt_ge_cases (N.of_nat i) Size) as [Hlt | Hge].
  - destruct (@Vector_At_in_range T Size a (N.of_nat i) Ha Hlt)
      as (x & Hx & Hnx).
    destruct (@Vector_At_in_range T Size b (N.of_nat i) Hb Hlt)
      as (y & Hy & Hny).
    rewrite Nat2N.id in Hnx, Hny. rewrite (H _ Hlt) in Hx. congruence.
  - rewrite (proj2 (nth_error_None (Vector.data a) i)) by lia.
    rewrite (proj2 (nth_error_None (Vector.data b) i)) by lia. reflexivity.
Qed.

(** X24: over a ring, for square shapes the identity matrix leaves every
    vector as it is, [Identity() * v == v], and the product with a
    vector is compatible with the product of matrices:
    [(A * B) * v == A * (B * v)]. *)
Theorem Matrix_Multiply_vec_composes (Size : size_t)
        (a b u1 u2 : Matrix.t T Size Size) (v w1 w2 w3 w4 : Vector.t T Size) :
  Matrix.wf a -> Matrix.wf b -> Matrix.wf u1 -> Matrix.wf u2 ->
  Vector.wf v -> Vector.wf w1 -> Vector.wf w2 -> Vector.wf w3 ->
  Vector.wf w4 -> Size * Size < size_max ->
  (exists I, Matrix.Identity u1 = Ok I /\
             Matrix.Multiply_vec w1 I v = Ok v) /\
  (exists ab bv r,
     Matrix.Multiply u2 a b = Ok ab /\ Matrix.Multiply_vec w2 ab v = Ok r /\
     Matrix.Multiply_vec w3 b v = Ok bv /\
     Matrix.Multiply_vec w4 a bv = Ok r).
Proof.
  intros Ha Hb Hu1 Hu2 Hv H1 H2 H3 H4 Hsz.
  assert (Hle : Size <= Size) by lia.
  assert (Hcomp : forall (x : Vector.t T Size) i f,
            Vector.wf x -> i < Size -> Vector.At x i = Ok f ->
            component x i = f).
  { intros x i f Hx Hi Hf.
    destruct (@Vector_At_in_range T Size x i Hx Hi) as (y & Hy & Hny).
    unfold component. rewrite (nth_error_nth _ _ zero Hny). congruence. }
  split.
  - destruct (Matrix_Identity_entry Hu1 Hsz) as (I & EI & HwI & HI).
    exists I. split; [exact EI |].
    destruct (Matrix_Multiply_vec_spec HwI Hv H1 Hsz Hle)
      as (r & Er & Hwr & Hr).
    rewrite Er. f_equal. apply Vector_ext; try assumption.
    intros i Hi. rewrite (Hr i Hi).
    destruct (@Vector_At_in_range T Size v i Hv Hi) as (y & Hy & Hny).
    rewrite Hy. f_equal.
    rewrite (sum_upto_single Tring (k := i)).
    + rewrite (proj2 (N.ltb_lt _ _) Hi), (HI i i Hi Hi), N.eqb_refl.
      rewrite (Hcomp v i y Hv Hi Hy). ring.
    + intros k Hk Hne. rewrite (HI i k Hi Hk).
      rewrite (proj2 (N.eqb_neq i k)) by congruence. ring.
  - destruct (Matrix_Multiply_entry Size Size Size u2 a b Ha Hb Hu2
                Hsz Hsz Hsz) as (ab & Eab & Hwab & Hab).
    destruct (Matrix_Multiply_vec_spec Hwab Hv H2 Hsz Hle)
      as (r & Er & Hwr & Hr).
    destruct (Matrix_Multiply_vec_spec Hb Hv H3 Hsz Hle)
      as (bv & Ebv & Hwbv & Hbv).
    destruct (Matrix_Multiply_vec_spec Ha Hwbv H4 Hsz Hle)
      as (q & Eq & Hwq & Hq).
    exists ab, bv, r.
    split; [exact Eab | split; [exact Er | split; [exact Ebv |]]].
    rewrite Eq. f_equal. apply Vector_ext; try assumption.
    intros i Hi. rewrite (Hq i Hi), (Hr i Hi). f_equal.
    transitivity
      (sum_upto Size (fun j => sum_upto Size (fun k =>
         mul (mul (entry a i j) (entry b j k)) (component v k)))).
    + apply sum_upto_ext. intros j Hj.
      rewrite (Hcomp bv j _ Hwbv Hj (Hbv j Hj)).
      rewrite <- (sum_upto_mul_l Tring). apply sum_upto_ext.
      intros k _. ring.
    + rewrite (sum_upto_swap Tring). apply sum_upto_ext. intros k Hk.
      rewrite (Hab i k Hi Hk). now rewrite <- (sum_upto_mul_r Tring).
Qed.

End MatrixVectorRing.

Lemma Matrix_Multiply_vec_composes_witness :
  let a := Matrix.mk (Rows := 2) (Cols := 2) [u32 1; u32 2; u32 3; u32 4] in
  let b := Matrix.mk (Rows := 2) (Cols := 2) [u32 5; u32 6; u32 7; u32 8] in
  let u := Matrix.mk (Rows := 2) (Cols := 2) [u32 0; u32 0; u32 0; u32 0] in
  let v := Vector.mk (Size := 2) [u32 9; u32 10] in
  let w := Vector.mk (Size := 2) [u32 0; u32 0] in
  (exists I, Matrix.Identity u = Ok I /\
             Matrix.Multiply_vec w I v = Ok v) /\
  (exists ab bv r,
     Matrix.Multiply u a b = Ok ab /\ Matrix.Multiply_vec w ab v = Ok r /\
     Matrix.Multiply_vec w b v = Ok bv /\
     Matrix.Multiply_vec w a bv = Ok r).
Proof.
  intros a b u v w.
  apply (@Matrix_Multiply_vec_composes uint32_t _ ScalarRing_uint32 2
           a b u u v w w w w); reflexivity.
Defined.

(* ------------------------------------------------------------------ *)
(** ** Construction from a sequence *)

Section ConstructionFromSequence.
Context {T : Type} {Sc : Scalar T}.

(** X27: [Matrix::Assign(values)] and the constructor from a sequence
    never change the elements of the matrix, whatever the sequence: a
    wrong length throws and a right length copies the matrix onto
    itself.  So the static constructors [Translation] and [Scale], which
    build their result from a sequence, return the storage the result
    started with, whatever their argument. *)
Theorem Matrix_values_are_never_stored (Rows Cols : size_t)
        (m : Matrix.t T Rows Cols) (values : list T)
        (storage : Matrix.t T 4 4) (v : Vector.t T 3) :
  Matrix.wf m -> Matrix.wf storage -> Vector.wf v ->
  snd (Matrix.Assign_values values m) = m /\
  (N.of_nat (length values) = wrap (Rows * Cols) ->
   Matrix.ctor_values m values = Ok m) /\
  Matrix.Translation storage v = Ok storage /\
  Matrix.Scale_multipliers storage v = Ok storage.
Proof.
  intros Hm Hs Hv.
  split; [| split; [| split]].
  - now rewrite (Matrix_Assign_values_keeps values Hm).
  - intros Hlen. unfold Matrix.ctor_values, exec.
    rewrite (Matrix_Assign_values_keeps values Hm).
    now rewrite (proj2 (N.eqb_eq _ _) Hlen).
  - now apply Matrix_Translation_keeps_storage.
  - destruct (Vector3_elements Hv) as (x & y & z & ->).
    unfold Matrix.Scale_multipliers, Vector.index, read. simpl.
    unfold Matrix.ctor_values, exec.
    now rewrite (Matrix_Assign_values_keeps _ Hs).
Qed.

End ConstructionFromSequence.

Lemma Matrix_values_are_never_stored_witness :
  let m := Matrix.mk (Rows := 1) (Cols := 2) [u32 1; u32 2] in
  let values := [u32 8; u32 9] in
  let storage := Matrix.mk (Rows := 4) (Cols := 4) (repeat (u32 0) 16) in
  let v := Vector.mk (Size := 3) [u32 1; u32 2; u32 3] in
  snd (Matrix.Assign_values values m) = m /\
  (N.of_nat (length values) = wrap (1 * 2) ->
   Matrix.ctor_values m values = Ok m) /\
  Matrix.Translation storage v = Ok storage /\
  Matrix.Scale_multipliers storage v = Ok storage.
Proof.
  intros m values storage v.
  apply (@Matrix_values_are_never_stored uint32_t _ 1 2 m values storage v);
    reflexivity.
Defined.

(* ------------------------------------------------------------------ *)
(** ** Sums, differences and multiples of matrices *)

Section MatrixRing.
Context {T : Type} {Sc : Scalar T}.
Hypothesis Tring : ScalarRing T.

Add Ring T_ring_matrix :
  (Tring : ring_theory zero one add mul sub opp (@eq T)).

(** X28: over a ring, subtracting what was added gives the matrix back,
    [m.Add(s).Subtract(s) == m] and [m.Add(mat).Subtract(mat) == m], and
    [Add] and [Hadamard] of two matrices do not depend on the order of
    the operands. *)
Theorem Matrix_Add_then_Subtract (Rows Cols : size_t)
        (m mat : Matrix.t T Rows Cols) (s : T) :
  Matrix.wf m -> Matrix.wf mat ->
  (exists w, Matrix.Add_scalar m s = Ok w /\
             Matrix.Subtract_scalar w s = Ok m) /\
  (exists w, Matrix.Add_mat m mat = Ok w /\
             Matrix.Subtract_mat w mat = Ok m) /\
  Matrix.Add_mat m mat = Matrix.Add_mat mat m /\
  Matrix.Hadamard m mat = Matrix.Hadamard mat m.
Proof.
  intros Hm Hmat.
  destruct (Matrix_scalar_loops Rows Cols m s Hm) as (EA & _).
  destruct (Matrix_scalar_loops Rows Cols _ s
              (Matrix_wf_map Rows Cols m (fun e => add e s) Hm))
    as (_ & ES & _).
  destruct (Matrix_matrix_loops Rows Cols m mat Hm Hmat)
    as (EAm & _ & EH & _).
  destruct (Matrix_matrix_loops Rows Cols mat m Hmat Hm)
    as (EAm' & _ & EH' & _).
  destruct (Matrix_matrix_loops Rows Cols _ mat
              (Matrix_wf_zip_with Rows Cols m mat add Hm Hmat) Hmat)
    as (_ & ESm & _).
  split; [| split; [| split]].
  - eexists. split; [exact EA |]. rewrite ES. simpl. rewrite map_map.
    f_equal. rewrite <- (Matrix_eta _ _ m) at 2. f_equal.
    rewrite <- (map_id (Matrix.data m)) at 2.
    apply map_ext. intros e. ring.
  - eexists. split; [exact EAm |]. rewrite ESm. simpl. f_equal.
    rewrite <- (Matrix_eta _ _ m) at 2. f_equal.
    apply zip_with_cancel.
    + unfold Matrix.wf in *. lia.
    + intros x y. ring.
  - rewrite EAm, EAm'. do 2 f_equal. apply zip_with_comm. intros x y. ring.
  - rewrite EH, EH'. do 2 f_equal. apply zip_with_comm. intros x y. ring.
Qed.

(** X29: over a ring, scaling either factor scales the product:
    [A.Scale(s) * B == (A * B).Scale(s)] and
    [A * B.Scale(s) == (A * B).Scale(s)]. *)
Theorem Matrix_Scale_and_Multiply (R C C2 : size_t)
        (a : Matrix.t T R C) (b : Matrix.t T C C2) (s : T)
        (u1 u2 u3 : Matrix.t T R C2) :
  Matrix.wf a -> Matrix.wf b ->
  Matrix.wf u1 -> Matrix.wf u2 -> Matrix.wf u3 ->
  R * C < size_max -> C * C2 < size_max -> R * C2 < size_max ->
  exists sa sb ab p,
    Matrix.Scale a s = Ok sa /\ Matrix.Multiply u1 sa b = Ok p /\
    Matrix.Scale b s = Ok sb /\ Matrix.Multiply u3 a sb = Ok p /\
    Matrix.Multiply u2 a b = Ok ab /\ Matrix.Scale ab s = Ok p.
Proof.
  intros Ha Hb H1 H2 H3 S1 S2 S3.
  destruct (Matrix_scalar_loops R C a s Ha) as (_ & _ & ES & _).
  destruct (Matrix_scalar_loops C C2 b s Hb) as (_ & _ & ESb & _).
  pose proof (Matrix_wf_map R C a (fun e => mul e s) Ha) as Hsa.
  pose proof (Matrix_wf_map C C2 b (fun e => mul e s) Hb) as Hsb.
  destruct (Matrix_Multiply_entry R C C2 u1 _ b Hsa Hb H1 S1 S2 S3)
    as (p & Ep & Hwp & Hp).
  destruct (Matrix_Multiply_entry R C C2 u3 a _ Ha Hsb H3 S1 S2 S3)
    as (q & Eq & Hwq & Hq).
  destruct (Matrix_Multiply_entry R C C2 u2 a b Ha Hb H2 S1 S2 S3)
    as (ab & Eab & Hwab & Hab).
  destruct (Matrix_scalar_loops R C2 ab s Hwab) as (_ & _ & ES' & _).
  assert (Eqp : q = p).
  { apply Matrix_ext_entry; try assumption.
    intros row col Hr Hc.
    rewrite (Hq row col Hr Hc), (Hp row col Hr Hc).
    apply sum_upto_ext. intros m Hm.
    rewrite (entry_map R C a (fun e => mul e s) row m Ha S1 Hr Hm).
    rewrite (entry_map C C2 b (fun e => mul e s) m col Hb S2 Hm Hc). ring. }
  exists (Matrix.mk (map (fun e => mul e s) (Matrix.data a))),
    (Matrix.mk (map (fun e => mul e s) (Matrix.data b))), ab, p.
  split; [exact ES | split; [exact Ep | split; [exact ESb |]]].
  split; [now rewrite Eq, Eqp | split; [exact Eab |]].
  rewrite ES'. f_equal. symmetry. apply Matrix_ext_entry; try assumption.
  - now apply Matrix_wf_map.
  - intros row col Hr Hc.
    rewrite (entry_map R C2 ab (fun e => mul e s) row col Hwab S3 Hr Hc).
    rewrite (Hp row col Hr Hc), (Hab row col Hr Hc).
    rewrite <- (sum_upto_mul_r Tring). apply sum_upto_ext. intros m Hm.
    rewrite (entry_map R C a (fun e => mul e s) row m Ha S1 Hr Hm). ring.
Qed.

End MatrixRing.

Lemma Matrix_Add_then_Subtract_witness :
  let m := Matrix.mk (Rows := 1) (Cols := 2) [u32 1; u32 2] in
  let mat := Matrix.mk (Rows := 1) (Cols := 2) [u32 3; u32 4] in
  (exists w, Matrix.Add_scalar m (u32 5) = Ok w /\
             Matrix.Subtract_scalar w (u32 5) = Ok m) /\
  (exists w, Matrix.Add_mat m mat = Ok w /\
             Matrix.Subtract_mat w mat = Ok m) /\
  Matrix.Add_mat m mat = Matrix.Add_mat mat m /\
  Matrix.Hadamard m mat = Matrix.Hadamard mat m.
Proof.
  intros m mat.
  apply (@Matrix_Add_then_Subtract uint32_t _ ScalarRing_uint32 1 2 m mat
           (u32 5)); reflexivity.
Defined.

Lemma Matrix_Scale_and_Multiply_witness :
  let a := Matrix.mk (Rows := 1) (Cols := 2) [u32 1; u32 2] in
  let b := Matrix.mk (Rows := 2) (Cols := 1) [u32 3; u32 4] in
  let u := Matrix.mk (Rows := 1) (Cols := 1) [u32 0] in
  exists sa sb ab p,
    Matrix.Scale a (u32 5) = Ok sa /\ Matrix.Multiply u sa b = Ok p /\
    Matrix.Scale b (u32 5) = Ok sb /\ Matrix.Multiply u a sb = Ok p /\
    Matrix.Multiply u a b = Ok ab /\ Matrix.Scale ab (u32 5) = Ok p.
Proof.
  intros a b u.
  apply (@Matrix_Scale_and_Multiply uint32_t _ ScalarRing_uint32 1 2 1
           a b (u32 5) u u u); reflexivity.
Defined.
